(** * url2pdf: the master-side batch scheduler of [url2pdf.js]

    A shallow embedding of the cluster master of [src/url2pdf.js]
    (the task table, the task queue, [assignTask], the timeout callback,
    [checkCompletion], the initial fork loop and the ['exit'] handler) and
    of the file-name construction of the worker's [processUrl].

    The master is a single-threaded event loop: every handler runs to
    completion before the next event is taken.  The embedding therefore
    has one state record for the master's variables and the part of the
    Node runtime the handlers touch (the keys of [cluster.workers], which
    workers have exited or disconnected, armed timers, the refresh
    interval, everything written to the outside), a small state
    and exception monad for the handlers, and a [step] function that runs
    the handler of one event. *)

From stdpp Require Import gmap strings list fin_maps fin_sets sorting pretty.
From Stdlib Require Import ZArith.

#[local] Set Warnings "-clear-no-such-hyp".

(** ** Data *)

(** The four status texts the master writes or displays. *)
Inductive status := Pending | InProgress | Completed | TimedOut.

Definition status_text (st : status) : string :=
  match st with
  | Pending => "Pending"
  | InProgress => "In Progress"
  | Completed => "Completed"
  | TimedOut => "Timed Out"
  end%string.

(** An element of [taskStatus] (lines 38-43). *)
Record entry := Entry {
  id : nat;
  status_of : status;
  progress : nat;
  duration : string
}.

(** An element of [taskQueue] (line 52). *)
Record task := Task { url : string; index : nat }.

(** What a worker posts to the master with [process.send] (lines 141-182). *)
Inductive message :=
  | MsgStatus (workerId : nat) (text : string)
  | MsgProgress (idx : nat) (percent : nat)
  | MsgCompleted (idx : nat) (workerId : nat) (fileName : string).

(** The lines the master prints outside of [updateConsole]. *)
Inductive line :=
  | LMasterRunning
  | LTaskTimedOut (number : nat)
  | LAllCompleted
  | LTotalTasks (n : nat)
  | LSuccessfullyCompleted (n : nat)
  | LTimedOutTasks (n : nat)
  | LShuttingDown
  | LWorkerExited (w : nat)
  | LStartingNewWorker.

(** What [updateConsole] draws: the worker table, the task table and the
    summary line (total, completed, timed out, remaining). *)
Record screen := Screen {
  scr_workers : list (nat * string);
  scr_tasks : list entry;
  scr_total : nat;
  scr_completed : nat;
  scr_timedOut : nat;
  scr_remaining : Z
}.

(** Everything the master does to the outside world, in order. *)
Inductive effect :=
  | Fork (w : nat)
  | Send (w : nat) (u : string) (idx : nat)
  | Kill (w : nat)
  | SetTimeout (idx : nat) (w : nat) (delay : Z)
  | ClearInterval
  | Render (scr : screen)
  | Log (l : line).

(** The master's variables (lines 38-54 and 100), followed by the runtime
    state its handlers read or change:
    - [workers]: the keys of [cluster.workers];
    - [exited], [disconnected]: the workers whose process has exited, and
      those whose channel has closed; the runtime deletes a key once its
      worker is in both, and the two can come in either order;
    - [nextId]: the id [cluster.fork()] gives to the next worker;
    - [onlineHooks]: workers whose ['online'] listener has not run yet;
    - [timers]: the armed [setTimeout] callbacks, as the [task.index] and
      [workerId] each closure captured;
    - [refresh]: whether [consoleUpdateInterval] is still armed;
    - [output]: the effects so far. *)
Record master := Master {
  urls : list string;
  taskStatus : list entry;
  workerStatus : gmap nat string;
  pdfInfo : gmap string string;
  completedTasks : nat;
  timedOutTasks : nat;
  totalProcessedTasks : nat;
  taskQueue : list task;
  startTimes : gmap nat Z;
  inProgress : gset nat;
  workers : gset nat;
  nextId : nat;
  onlineHooks : gset nat;
  timers : list (nat * nat);
  refresh : bool;
  output : list effect;
  exited : gset nat;
  disconnected : gset nat
}.

(** Field updates. *)
Definition set_taskStatus (v : list entry) (s : master) : master :=
  Master (urls s) v (workerStatus s) (pdfInfo s) (completedTasks s)
    (timedOutTasks s) (totalProcessedTasks s) (taskQueue s) (startTimes s)
    (inProgress s) (workers s) (nextId s) (onlineHooks s) (timers s)
    (refresh s) (output s) (exited s) (disconnected s).
Definition set_workerStatus (v : gmap nat string) (s : master) : master :=
  Master (urls s) (taskStatus s) v (pdfInfo s) (completedTasks s)
    (timedOutTasks s) (totalProcessedTasks s) (taskQueue s) (startTimes s)
    (inProgress s) (workers s) (nextId s) (onlineHooks s) (timers s)
    (refresh s) (output s) (exited s) (disconnected s).
Definition set_timedOutTasks (v : nat) (s : master) : master :=
  Master (urls s) (taskStatus s) (workerStatus s) (pdfInfo s)
    (completedTasks s) v (totalProcessedTasks s) (taskQueue s) (startTimes s)
    (inProgress s) (workers s) (nextId s) (onlineHooks s) (timers s)
    (refresh s) (output s) (exited s) (disconnected s).
Definition set_totalProcessedTasks (v : nat) (s : master) : master :=
  Master (urls s) (taskStatus s) (workerStatus s) (pdfInfo s)
    (completedTasks s) (timedOutTasks s) v (taskQueue s) (startTimes s)
    (inProgress s) (workers s) (nextId s) (onlineHooks s) (timers s)
    (refresh s) (output s) (exited s) (disconnected s).
Definition set_taskQueue (v : list task) (s : master) : master :=
  Master (urls s) (taskStatus s) (workerStatus s) (pdfInfo s)
    (completedTasks s) (timedOutTasks s) (totalProcessedTasks s) v
    (startTimes s) (inProgress s) (workers s) (nextId s) (onlineHooks s)
    (timers s) (refresh s) (output s) (exited s) (disconnected s).
Definition set_startTimes (v : gmap nat Z) (s : master) : master :=
  Master (urls s) (taskStatus s) (workerStatus s) (pdfInfo s)
    (completedTasks s) (timedOutTasks s) (totalProcessedTasks s)
    (taskQueue s) v (inProgress s) (workers s) (nextId s) (onlineHooks s)
    (timers s) (refresh s) (output s) (exited s) (disconnected s).
Definition set_inProgress (v : gset nat) (s : master) : master :=
  Master (urls s) (taskStatus s) (workerStatus s) (pdfInfo s)
    (completedTasks s) (timedOutTasks s) (totalProcessedTasks s)
    (taskQueue s) (startTimes s) v (workers s) (nextId s) (onlineHooks s)
    (timers s) (refresh s) (output s) (exited s) (disconnected s).
Definition set_workers (v : gset nat) (s : master) : master :=
  Master (urls s) (taskStatus s) (workerStatus s) (pdfInfo s)
    (completedTasks s) (timedOutTasks s) (totalProcessedTasks s)
    (taskQueue s) (startTimes s) (inProgress s) v (nextId s) (onlineHooks s)
    (timers s) (refresh s) (output s) (exited s) (disconnected s).
Definition set_nextId (v : nat) (s : master) : master :=
  Master (urls s) (taskStatus s) (workerStatus s) (pdfInfo s)
    (completedTasks s) (timedOutTasks s) (totalProcessedTasks s)
    (taskQueue s) (startTimes s) (inProgress s) (workers s) v (onlineHooks s)
    (timers s) (refresh s) (output s) (exited s) (disconnected s).
Definition set_onlineHooks (v : gset nat) (s : master) : master :=
  Master (urls s) (taskStatus s) (workerStatus s) (pdfInfo s)
    (completedTasks s) (timedOutTasks s) (totalProcessedTasks s)
    (taskQueue s) (startTimes s) (inProgress s) (workers s) (nextId s) v
    (timers s) (refresh s) (output s) (exited s) (disconnected s).
Definition set_timers (v : list (nat * nat)) (s : master) : master :=
  Master (urls s) (taskStatus s) (workerStatus s) (pdfInfo s)
    (completedTasks s) (timedOutTasks s) (totalProcessedTasks s)
    (taskQueue s) (startTimes s) (inProgress s) (workers s) (nextId s)
    (onlineHooks s) v (refresh s) (output s) (exited s) (disconnected s).
Definition set_refresh (v : bool) (s : master) : master :=
  Master (urls s) (taskStatus s) (workerStatus s) (pdfInfo s)
    (completedTasks s) (timedOutTasks s) (totalProcessedTasks s)
    (taskQueue s) (startTimes s) (inProgress s) (workers s) (nextId s)
    (onlineHooks s) (timers s) v (output s) (exited s) (disconnected s).
Definition set_output (v : list effect) (s : master) : master :=
  Master (urls s) (taskStatus s) (workerStatus s) (pdfInfo s)
    (completedTasks s) (timedOutTasks s) (totalProcessedTasks s)
    (taskQueue s) (startTimes s) (inProgress s) (workers s) (nextId s)
    (onlineHooks s) (timers s) (refresh s) v (exited s) (disconnected s).
Definition set_exited (v : gset nat) (s : master) : master :=
  Master (urls s) (taskStatus s) (workerStatus s) (pdfInfo s)
    (completedTasks s) (timedOutTasks s) (totalProcessedTasks s)
    (taskQueue s) (startTimes s) (inProgress s) (workers s) (nextId s)
    (onlineHooks s) (timers s) (refresh s) (output s) v (disconnected s).
Definition set_disconnected (v : gset nat) (s : master) : master :=
  Master (urls s) (taskStatus s) (workerStatus s) (pdfInfo s)
    (completedTasks s) (timedOutTasks s) (totalProcessedTasks s)
    (taskQueue s) (startTimes s) (inProgress s) (workers s) (nextId s)
    (onlineHooks s) (timers s) (refresh s) (output s) (exited s) v.

(** ** The handler monad

    A handler changes the master's state and either returns or throws.
    What it changed before throwing stays changed, so both outcomes carry
    the state. *)

Inductive exn := TypeError.

Inductive result (A : Type) :=
  | Ok (a : A) (s : master)
  | Throw (e : exn) (s : master).
Arguments Ok {A} a s.
Arguments Throw {A} e s.

Definition M (A : Type) : Type := master → result A.

Definition state_of {A} (r : result A) : master :=
  match r with Ok _ s => s | Throw _ s => s end.

Global Instance M_ret : MRet M := λ A a s, Ok a s.
Global Instance M_bind : MBind M := λ A B f m s,
  match m s with
  | Ok a s' => f a s'
  | Throw e s' => Throw e s'
  end.

Definition gets {A} (f : master → A) : M A := λ s, Ok (f s) s.
Definition modify (f : master → master) : M unit := λ s, Ok () (f s).
Definition throw {A} (e : exn) : M A := λ s, Throw e s.
Definition emit (e : effect) : M unit :=
  modify (λ s, set_output (output s ++ [e]) s).

(** ** The master's functions *)

Definition TASK_TIMEOUT : Z := 300000.

(** [taskStatus[i].status = st; taskStatus[i].progress = p]: reading a
    property of [taskStatus[i]] throws when there is no element [i]. *)
Definition setStatusProgress (i : nat) (st : status) (p : nat) : M unit :=
  ts ← gets taskStatus;
  match ts !! i with
  | Some e => modify (set_taskStatus (<[i := Entry (id e) st p (duration e)]> ts))
  | None => throw TypeError
  end.

(** [cluster.workers[workerId].send({type: 'start', url, index})]: throws
    when [cluster.workers] has no such key.  With the key there, [Send]
    records the call of [worker.send]; what the channel of a worker that
    has exited or disconnected does with the message is not the master's
    code. *)
Definition send (workerId : nat) (t : task) : M unit :=
  ws ← gets workers;
  if decide (workerId ∈ ws) then emit (Send workerId (url t) (index t))
  else throw TypeError.

(** [setTimeout(() => ..., TASK_TIMEOUT)] in [assignTask]. *)
Definition setTimeout (idx workerId : nat) : M unit :=
  modify (λ s, set_timers (timers s ++ [(idx, workerId)]) s);;
  emit (SetTimeout idx workerId TASK_TIMEOUT).

(** [assignTask] (lines 56-79) up to the arming of the timer; [now] is
    what [Date.now()] returns. *)
Definition assignTask (now : Z) (workerId : nat) : M unit :=
  q ← gets taskQueue;
  match q with
  | [] => mret ()
  | t :: rest =>
      modify (set_taskQueue rest);;
      modify (λ s, set_startTimes (<[index t := now]> (startTimes s)) s);;
      modify (λ s, set_inProgress ({[index t]} ∪ inProgress s) s);;
      setStatusProgress (index t) InProgress 10;;
      send workerId t;;
      setTimeout (index t) workerId
  end.

(** Keys of a JS object whose keys are integers are enumerated in
    ascending order ([for ... in], [Object.entries]). *)
Definition keys_in_order (ks : gset nat) : list nat :=
  merge_sort Nat.le (elements ks).

Definition entries (m : gmap nat string) : list (nat * string) :=
  omap (λ k, (λ v, (k, v)) <$> m !! k) (keys_in_order (dom m)).

(** [updateConsole] (lines 81-97). *)
Definition updateConsole : M unit :=
  s ← gets (λ s, s);
  emit (Render (Screen (entries (workerStatus s)) (taskStatus s)
                  (length (urls s)) (completedTasks s) (timedOutTasks s)
                  (Z.of_nat (length (urls s)) - Z.of_nat (totalProcessedTasks s)))).

(** The loop of lines 112-114. *)
Fixpoint killAll (ids : list nat) : M unit :=
  match ids with
  | [] => mret ()
  | w :: ids' => emit (Kill w);; killAll ids'
  end.

(** [checkCompletion] (lines 102-116). *)
Definition checkCompletion : M unit :=
  s ← gets (λ s, s);
  if decide (totalProcessedTasks s = length (urls s)) then
    modify (set_refresh false);; emit ClearInterval;;
    updateConsole;;
    emit (Log LAllCompleted);;
    emit (Log (LTotalTasks (length (urls s))));;
    emit (Log (LSuccessfullyCompleted (completedTasks s)));;
    emit (Log (LTimedOutTasks (timedOutTasks s)));;
    emit (Log LShuttingDown);;
    killAll (keys_in_order (workers s))
  else mret ().

(** The body of the timeout callback before it calls [checkCompletion]
    (lines 68-73). *)
Definition markTimedOut (idx : nat) : M unit :=
  emit (Log (LTaskTimedOut (idx + 1)));;
  modify (λ s, set_inProgress (inProgress s ∖ {[idx]}) s);;
  setStatusProgress idx TimedOut 0;;
  modify (λ s, set_timedOutTasks (timedOutTasks s + 1) s);;
  modify (λ s, set_totalProcessedTasks (totalProcessedTasks s + 1) s).

(** The timeout callback of [assignTask] (lines 66-77), for the closure
    that captured [task.index = idx] and [workerId]. *)
Definition onTimeout (now : Z) (idx workerId : nat) : M unit :=
  ip ← gets inProgress;
  if decide (idx ∈ ip) then
    markTimedOut idx;;
    checkCompletion;;
    assignTask now workerId
  else mret ().

(** [cluster.fork()] followed by what both call sites do with the new
    worker (lines 120-124 and 133-137): ids are handed out in sequence,
    the worker is entered in [cluster.workers], its status is set to
    ['Idle'] and an ['online'] listener is registered. *)
Definition forkWorker : M unit :=
  w ← gets nextId;
  modify (λ s, set_nextId (w + 1) (set_workers ({[w]} ∪ workers s) s));;
  emit (Fork w);;
  modify (λ s, set_workerStatus (<[w := "Idle"%string]> (workerStatus s)) s);;
  modify (λ s, set_onlineHooks ({[w]} ∪ onlineHooks s) s).

(** The loop of lines 119-125. *)
Fixpoint forkLoop (n : nat) : M unit :=
  match n with
  | 0 => mret ()
  | S n' => forkWorker;; forkLoop n'
  end.

(** The ['exit'] handler (lines 128-139). *)
Definition onExit (w : nat) : M unit :=
  emit (Log (LWorkerExited w));;
  modify (λ s, set_workerStatus (delete w (workerStatus s)) s);;
  s ← gets (λ s, s);
  if decide (0 < length (taskQueue s) ∨ 0 < size (inProgress s)) then
    emit (Log LStartingNewWorker);;
    forkWorker
  else mret ().

(** The master's variables after lines 36-54 and 100, before any worker
    is forked. *)
Definition fresh (us : list string) : master :=
  {| urls := us;
     taskStatus := imap (λ i _, Entry (i + 1) Pending 0 "-"%string) us;
     workerStatus := ∅;
     pdfInfo := ∅;
     completedTasks := 0;
     timedOutTasks := 0;
     totalProcessedTasks := 0;
     taskQueue := imap (λ i u, Task u i) us;
     startTimes := ∅;
     inProgress := ∅;
     workers := ∅;
     nextId := 1;
     onlineHooks := ∅;
     timers := [];
     refresh := true;
     output := [Log LMasterRunning];
     exited := ∅;
     disconnected := ∅ |}.

(** The master after its top-level code has run, on a host with
    [numCPUs] processors. *)
Definition init (us : list string) (numCPUs : nat) : master :=
  state_of (forkLoop numCPUs (fresh us)).

(** ** The event loop *)

Inductive event :=
  | WorkerOnline (w : nat)
  | Tick
  | TimerFired (idx : nat) (w : nat)
  | WorkerExit (w : nat)
  | WorkerMessage (w : nat) (m : message)
  | WorkerDisconnect (w : nat).

(** Removing the first occurrence of a fired timer. *)
Fixpoint remove_first (x : nat * nat) (l : list (nat * nat)) : list (nat * nat) :=
  match l with
  | [] => []
  | y :: l' => if decide (x = y) then l' else y :: remove_first x l'
  end.

(** An event can be delivered only in a state that has its source: a
    forked worker that is not yet online, the armed refresh interval, an
    armed timer, a worker that has not yet exited, a worker whose channel
    is still open. *)
Definition enabled (e : event) (s : master) : bool :=
  match e with
  | WorkerOnline w =>
      bool_decide (w ∈ workers s ∧ w ∈ onlineHooks s ∧
                   (w ∉ exited s) ∧ (w ∉ disconnected s))
  | Tick => refresh s
  | TimerFired idx w => bool_decide ((idx, w) ∈ timers s)
  | WorkerExit w => bool_decide (w ∈ workers s ∧ (w ∉ exited s))
  | WorkerMessage w _ =>
      bool_decide (w ∈ workers s ∧ (w ∉ exited s) ∧ (w ∉ disconnected s))
  | WorkerDisconnect w => bool_decide (w ∈ workers s ∧ (w ∉ disconnected s))
  end.

(** The handler of an event.  Before the listener runs, the runtime
    removes a fired timer from the armed ones and, for ['exit'] and
    ['disconnect'], marks the worker and deletes its key from
    [cluster.workers] if the other of the two has already happened: after
    an ['exit'] that comes first the key is still there while the
    listener runs.  The master registers no ['message'] and no
    ['disconnect'] listener, on [cluster] or on any worker, so those
    events run no code of the master. *)
Definition handle (now : Z) (e : event) : M unit :=
  match e with
  | WorkerOnline w =>
      modify (λ s, set_onlineHooks (onlineHooks s ∖ {[w]}) s);;
      assignTask now w
  | Tick => updateConsole
  | TimerFired idx w =>
      modify (λ s, set_timers (remove_first (idx, w) (timers s)) s);;
      onTimeout now idx w
  | WorkerExit w =>
      modify (λ s, set_onlineHooks (onlineHooks s ∖ {[w]})
                     (set_exited ({[w]} ∪ exited s)
                        (set_workers
                           (if decide (w ∈ disconnected s)
                            then workers s ∖ {[w]} else workers s) s)));;
      onExit w
  | WorkerMessage _ _ => mret ()
  | WorkerDisconnect w =>
      modify (λ s, set_disconnected ({[w]} ∪ disconnected s)
                     (set_workers
                        (if decide (w ∈ exited s)
                         then workers s ∖ {[w]} else workers s) s))
  end.

(** One turn of the event loop; an event without a source does not
    happen. *)
Definition step (now : Z) (e : event) : M unit :=
  λ s, if enabled e s then handle now e s else Ok () s.

(** A run: events with the clock reading at their delivery.  An uncaught
    exception ends the master. *)
Fixpoint run (evs : list (Z * event)) : M unit :=
  match evs with
  | [] => mret ()
  | (now, e) :: evs' => step now e;; run evs'
  end.

Definition reachable (us : list string) (numCPUs : nat) (s : master) : Prop :=
  ∃ evs, run evs (init us numCPUs) = Ok () s.

(** The states in which the timeout callback calls [checkCompletion]. *)
Definition at_check (us : list string) (numCPUs : nat) (s1 : master) : Prop :=
  ∃ s idx, reachable us numCPUs s ∧ idx ∈ inProgress s ∧
           markTimedOut idx s = Ok () s1.

(** ** The artifact name (worker side, lines 166-170) *)

(** The two readings [processUrl] takes of [new Date()]: [getMonth()] is
    0-based, [getDate()] is the day of the month. *)
Record date := Date { getMonth : nat; getDate : nat }.

Definition valid_date (d : date) : Prop :=
  getMonth d < 12 ∧ 1 ≤ getDate d ≤ 31.

(** [s.padStart(targetLength, padString)]: [padString] is repeated and cut
    to the missing length; nothing is added when [s] is long enough or
    [padString] is empty. *)
Definition padStart (targetLength : nat) (padString s : string) : string :=
  let len := String.length s in
  if decide (targetLength ≤ len) then s
  else if decide (padString = ""%string) then s
  else
    String.substring 0 (targetLength - len)
      (String.concat "" (replicate (targetLength - len) padString)) +:+ s.

(** [String(n)] for a natural number is its decimal numeral, which is
    stdpp's [pretty]. *)
Definition fileName (d : date) (idx : nat) : string :=
  let month := padStart 2 "0" (pretty (getMonth d + 1)) in
  let day := padStart 2 "0" (pretty (getDate d)) in
  let number := padStart 2 "0" (pretty (idx + 1)) in
  month +:+ day +:+ "-" +:+ number +:+ ".pdf".

(** The spec's wording, for comparison: exactly two decimal digits. *)
Definition two_digits (n : nat) : string :=
  String (pretty_N_char (N.of_nat n / 10))
    (String (pretty_N_char (N.of_nat n mod 10)) "").


(** * Specification vocabulary

    The states the handlers produce, written out, and the predicates the
    properties below are stated with. *)

(** ** The states the handlers produce *)

(** The state of [assignTask] after lines 58-60: task dequeued, start time
    recorded, index added to [inProgress]. *)
Definition dequeued (now : Z) (t : task) (rest : list task) (s : master) : master :=
  set_inProgress ({[index t]} ∪ inProgress s)
    (set_startTimes (<[index t := now]> (startTimes s))
       (set_taskQueue rest s)).

(** The same with the task marked in progress: the state at [send]. *)
Definition started (now : Z) (t : task) (rest : list task) (e : entry)
    (s : master) : master :=
  set_taskStatus (<[index t := Entry (id e) InProgress 10 (duration e)]> (taskStatus s))
    (dequeued now t rest s).

(** The message sent and the timer armed. *)
Definition armed (w : nat) (t : task) (s : master) : master :=
  set_output (output s ++ [Send w (url t) (index t); SetTimeout (index t) w TASK_TIMEOUT])
    (set_timers (timers s ++ [(index t, w)]) s).

(** The state in which the timeout callback calls [checkCompletion]. *)
Definition marked (idx : nat) (e : entry) (s : master) : master :=
  set_totalProcessedTasks (totalProcessedTasks s + 1)
    (set_timedOutTasks (timedOutTasks s + 1)
       (set_taskStatus (<[idx := Entry (id e) TimedOut 0 (duration e)]> (taskStatus s))
          (set_inProgress (inProgress s ∖ {[idx]})
             (set_output (output s ++ [Log (LTaskTimedOut (idx + 1))]) s)))).

(** The screen [checkCompletion] draws when it fires. *)
Definition final_screen (s : master) : screen :=
  Screen (entries (workerStatus s)) (taskStatus s) (length (urls s))
    (completedTasks s) (timedOutTasks s)
    (Z.of_nat (length (urls s)) - Z.of_nat (totalProcessedTasks s)).

(** The effects of lines 104-114, in order. *)
Definition shutdown_effects (s : master) : list effect :=
  [ClearInterval; Render (final_screen s); Log LAllCompleted;
   Log (LTotalTasks (length (urls s)));
   Log (LSuccessfullyCompleted (completedTasks s));
   Log (LTimedOutTasks (timedOutTasks s)); Log LShuttingDown]
  ++ (Kill <$> keys_in_order (workers s)).

(** The state a firing [checkCompletion] leaves. *)
Definition shut_down (s : master) : master :=
  set_output (output s ++ shutdown_effects s) (set_refresh false s).

(** The state after [cluster.fork()] and the bookkeeping that follows. *)
Definition forked (s : master) : master :=
  set_onlineHooks ({[nextId s]} ∪ onlineHooks s)
    (set_workerStatus (<[nextId s := "Idle"%string]> (workerStatus s))
       (set_output (output s ++ [Fork (nextId s)])
          (set_nextId (nextId s + 1)
             (set_workers ({[nextId s]} ∪ workers s) s)))).

(** The state of the ['exit'] handler at its test (lines 129-130). *)
Definition exit_logged (w : nat) (s : master) : master :=
  set_workerStatus (delete w (workerStatus s))
    (set_output (output s ++ [Log (LWorkerExited w)]) s).

(** The test of line 131. *)
Definition work_remains (s : master) : Prop :=
  0 < length (taskQueue s) ∨ 0 < size (inProgress s).

(** ** The scheduler invariant

    With [k] tasks taken from the queue, the queue is the rest of the
    input in input order, the jobs in progress are among the first [k],
    every other one of the first [k] has timed out, and the task table
    says exactly that.  No job is ever completed and [pdfInfo] stays
    empty, since no code of the master writes either. *)

(** The queue of line 52. *)
Definition initial_queue (us : list string) : list task :=
  imap (λ i u, Task u i) us.

(** The entry of job [i] when [k] tasks have been dequeued and [ip] are in
    progress. *)
Definition view (k : nat) (ip : gset nat) (i : nat) : entry :=
  if decide (k ≤ i) then Entry (i + 1) Pending 0 "-"
  else if decide (i ∈ ip) then Entry (i + 1) InProgress 10 "-"
  else Entry (i + 1) TimedOut 0 "-".

Record inv_at (us : list string) (k : nat) (s : master) : Prop := InvAt {
  inv_urls : urls s = us;
  inv_k : k ≤ length us;
  inv_queue : taskQueue s = drop k (initial_queue us);
  inv_inProgress : ∀ i, i ∈ inProgress s → i < k;
  inv_length : length (taskStatus s) = length us;
  inv_table : ∀ i, i < length us →
    taskStatus s !! i = Some (view k (inProgress s) i);
  inv_count : timedOutTasks s + size (inProgress s) = k;
  inv_completed : completedTasks s = 0;
  inv_total : totalProcessedTasks s = timedOutTasks s;
  inv_pdfInfo : pdfInfo s = ∅
}.

(** The invariant, for some number of dequeued tasks. *)
Definition inv (us : list string) (s : master) : Prop := ∃ k, inv_at us k s.

(** The outcomes of [assignTask] in a state of the invariant: the table
    always has the entry of the task at the head of the queue, so the only
    throw is the one of [send]. *)
Inductive assign_outcome (k : nat) (now : Z) (w : nat) (s : master) :
    result unit → Prop :=
  | assign_idle :
      taskQueue s = [] → assign_outcome k now w s (Ok () s)
  | assign_sent t rest :
      taskQueue s = t :: rest → index t = k → w ∈ workers s →
      assign_outcome k now w s
        (Ok () (armed w t (started now t rest (view k (inProgress s) k) s)))
  | assign_thrown t rest :
      taskQueue s = t :: rest → index t = k → w ∉ workers s →
      assign_outcome k now w s
        (Throw TypeError (started now t rest (view k (inProgress s) k) s)).

(** The state after the check in the timeout callback. *)
Definition checked (s : master) : master :=
  if decide (totalProcessedTasks s = length (urls s)) then shut_down s else s.

(** ** Observations on the output *)

(** How many times the shutdown sequence has started: it starts with
    [clearInterval]. *)
Fixpoint shutdowns (out : list effect) : nat :=
  match out with
  | [] => 0
  | ClearInterval :: out' => S (shutdowns out')
  | _ :: out' => shutdowns out'
  end.

(** How many workers have been forked. *)
Fixpoint forks (out : list effect) : nat :=
  match out with
  | [] => 0
  | Fork _ :: out' => S (forks out')
  | _ :: out' => forks out'
  end.

(** What one call of [m] adds to the count of shutdown sequences. *)
Definition fired_by {A} (m : M A) (s : master) : nat :=
  shutdowns (output (state_of (m s))) - shutdowns (output s).

(** [cluster.fork()] never hands out the id of a worker it already has. *)
Definition ids_fresh (s : master) : Prop :=
  ∀ w, w ∈ workers s → w < nextId s.

(** The shutdown sequence has run at most once, and not at all while the
    total-processed counter is below the number of jobs. *)
Definition at_most_once (s : master) : Prop :=
  shutdowns (output s) ≤ 1 ∧
  (totalProcessedTasks s < length (urls s) → shutdowns (output s) = 0).

(** The two together, kept alongside the scheduler invariant. *)
Definition aux (s : master) : Prop := ids_fresh s ∧ at_most_once s.

(** The workers that have not exited: a key of [cluster.workers] can
    outlive its worker until the channel closes too. *)
Definition live (s : master) : gset nat := workers s ∖ exited s.

(** The flags are only set for workers that have been forked. *)
Definition flags_known (s : master) : Prop :=
  ∀ w, w ∈ exited s ∪ disconnected s → w < nextId s.


(** ** Example runs *)

(** One job on a one-processor host, handed to worker 1 at time 0. *)
Definition one_job_running : master :=
  state_of (run [(0%Z, WorkerOnline 1)] (init ["https://example.org/"%string] 1)).

(** The same run inside the timeout callback of that job, at the call of
    [checkCompletion]. *)
Definition one_job_at_check : master :=
  state_of (markTimedOut 0 one_job_running).

(** Three jobs on a one-processor host: worker 1 takes job 0, exits and
    disconnects, its replacement, worker 2, takes job 1; job 2 is still
    queued and the timer of job 0, which captured worker 1, is still
    armed. *)
Definition stale_timer_trace : list (Z * event) :=
  [(0%Z, WorkerOnline 1); (1000%Z, WorkerExit 1);
   (1001%Z, WorkerDisconnect 1); (2000%Z, WorkerOnline 2)].

Definition stale_timer_state : master :=
  state_of (run stale_timer_trace (init ["a"; "b"; "c"]%string 1)).

(** The one-job run after the timer of the job has fired. *)
Definition one_job_timed_out : master :=
  state_of (run [(0%Z, WorkerOnline 1); (300000%Z, TimerFired 0 1)]
              (init ["https://example.org/"%string] 1)).



(** * The rest of the program *)

(** ** Reading the job list (lines 25-33) *)

(** The raw value of a spreadsheet cell.  Numbers are kept abstract: the
    loop only asks whether one is truthy (neither zero nor [NaN]). *)
Inductive value (number : Type) :=
  | VString (s : string)
  | VNumber (x : number)
  | VBoolean (b : bool).
Arguments VString {number} s.
Arguments VNumber {number} x.
Arguments VBoolean {number} b.

(** A cell object; [v] is absent for a cell that only carries formatting. *)
Record cell (number : Type) := Cell { v : option (value number) }.
Arguments Cell {number} v.
Arguments v {number} c.

(** JS truthiness of a raw value. *)
Definition truthy {number} (truthy_number : number → bool)
    (x : value number) : bool :=
  match x with
  | VString s => bool_decide (s ≠ ""%string)
  | VNumber n => truthy_number n
  | VBoolean b => b
  end.

(** The key [`A${row}`]. *)
Definition cellName (row : nat) : string := "A" +:+ pretty row.

(** The loop test [sheet[`A${row}`] && sheet[`A${row}`].v], giving the
    value the body pushes when the test holds. *)
Definition loopTest {number} (truthy_number : number → bool)
    (sheet : gmap string (cell number)) (row : nat) : option (value number) :=
  match sheet !! cellName row with
  | Some c =>
      match v c with
      | Some x => if truthy truthy_number x then Some x else None
      | None => None
      end
  | None => None
  end.

(** The [while] loop of lines 30-33, from the current [row] and [urls];
    [None] when the fuel runs out. *)
Fixpoint readRows {number} (truthy_number : number → bool) (fuel : nat)
    (sheet : gmap string (cell number)) (row : nat)
    (urls : list (value number)) : option (list (value number)) :=
  match fuel with
  | 0 => None
  | S fuel' =>
      match loopTest truthy_number sheet row with
      | Some x => readRows truthy_number fuel' sheet (row + 1) (urls ++ [x])
      | None => Some urls
      end
  end.

(** Lines 27-33: [urls = []], [row = 1], then the loop.  A sheet has
    finitely many cells; one more turn than it has cells is enough. *)
Definition readUrls {number} (truthy_number : number → bool)
    (sheet : gmap string (cell number)) : option (list (value number)) :=
  readRows truthy_number (S (size sheet)) sheet 1 [].

(** ** The worker (lines 141-189) *)

(** The promises [processUrl] awaits. *)
Inductive call :=
  | Launch
  | NewPage
  | Goto (u : string)
  | AutoScroll
  | Sleep (ms : Z)
  | WaitForComplete
  | Pdf (dir file : string)
  | CloseBrowser.

(** How an awaited promise ends. *)
Inductive settles := Fulfils | Rejects | NeverSettles.

(** What the worker does, in order: messages posted to the master and
    promises awaited. *)
Inductive waction :=
  | Post (m : message)
  | Await (c : call).

(** How an [async] function stands once nothing more can run: returned,
    rejected at an [await], or suspended for ever at one. *)
Inductive wresult (A : Type) :=
  | Returned (a : A) (log : list waction)
  | Rejected (log : list waction)
  | Suspended (log : list waction).
Arguments Returned {A} a log.
Arguments Rejected {A} log.
Arguments Suspended {A} log.

Definition log_of {A} (r : wresult A) : list waction :=
  match r with Returned _ l => l | Rejected l => l | Suspended l => l end.

(** Worker code: it reads how each promise settles and extends the log. *)
Definition W (A : Type) : Type := (call → settles) → list waction → wresult A.

Global Instance W_ret : MRet W := λ A a env log, Returned a log.
Global Instance W_bind : MBind W := λ A B f m env log,
  match m env log with
  | Returned a log' => f a env log'
  | Rejected log' => Rejected log'
  | Suspended log' => Suspended log'
  end.

(** [process.send(m)]. *)
Definition post (m : message) : W unit :=
  λ env log, Returned () (log ++ [Post m]).

(** [await c]. *)
Definition await (c : call) : W unit :=
  λ env log,
    match env c with
    | Fulfils => Returned () (log ++ [Await c])
    | Rejects => Rejected (log ++ [Await c])
    | NeverSettles => Suspended (log ++ [Await c])
    end.

(** [await new Promise(resolve => setTimeout(resolve, ms))]: it always
    resolves. *)
Definition sleep (ms : Z) : W unit :=
  λ env log, Returned () (log ++ [Await (Sleep ms)]).

(** [processUrl] (lines 143-183) in the worker with id [workerId];
    [today] is what [new Date()] gives at line 166 and [Pdf dir file]
    stands for [page.pdf] with [path.join(dir, file)]. *)
Definition processUrl (workerId : nat) (outputDir : string) (today : date)
    (u : string) (idx : nat) : W unit :=
  post (MsgProgress idx 10);;
  post (MsgStatus workerId "Starting browser");;
  await Launch;;
  await NewPage;;
  post (MsgStatus workerId "Loading page");;
  await (Goto u);;
  post (MsgProgress idx 30);;
  post (MsgStatus workerId "Scrolling page");;
  await AutoScroll;;
  post (MsgProgress idx 50);;
  post (MsgStatus workerId "Waiting for load to complete");;
  sleep 10000;;
  post (MsgProgress idx 70);;
  await WaitForComplete;;
  post (MsgStatus workerId "Generating PDF");;
  await (Pdf outputDir (fileName today idx));;
  post (MsgProgress idx 90);;
  await CloseBrowser;;
  post (MsgCompleted idx workerId (fileName today idx)).

(** The progress percentages among the messages of a log, in order. *)
Fixpoint percents (log : list waction) : list nat :=
  match log with
  | [] => []
  | Post (MsgProgress _ p) :: log' => p :: percents log'
  | _ :: log' => percents log'
  end.

(** The completion messages of a log. *)
Fixpoint completions (log : list waction) : list (nat * nat * string) :=
  match log with
  | [] => []
  | Post (MsgCompleted i w f) :: log' => (i, w, f) :: completions log'
  | _ :: log' => completions log'
  end.

(** ** [autoScroll] (lines 192-209) *)

Definition distance : Z := 100.

(** The interval callback, turn after turn: [scrollHeight tick] is what
    [document.body.scrollHeight] reads in turn [tick].  The result is the
    number of [scrollBy] calls and [totalHeight] when the promise
    resolves; [None] when the fuel runs out first. *)
Fixpoint autoScroll (fuel : nat) (scrollHeight : nat → Z) (tick : nat)
    (totalHeight : Z) : option (nat * Z) :=
  match fuel with
  | 0 => None
  | S fuel' =>
      let totalHeight' := (totalHeight + distance)%Z in
      if decide (scrollHeight tick ≤ totalHeight')%Z
      then Some (S tick, totalHeight')
      else autoScroll fuel' scrollHeight (S tick) totalHeight'
  end.

(** ** Further observations on the master's output *)

(** The jobs sent to workers, in order. *)
Fixpoint sends (out : list effect) : list task :=
  match out with
  | [] => []
  | Send _ u i :: out' => Task u i :: sends out'
  | _ :: out' => sends out'
  end.

(** The screens drawn, in order. *)
Fixpoint screens (out : list effect) : list screen :=
  match out with
  | [] => []
  | Render scr :: out' => scr :: screens out'
  | _ :: out' => screens out'
  end.

(** A screen that adds up for a batch of [total] jobs: the three figures
    of the summary line partition the jobs and none is negative. *)
Definition consistent_screen (total : nat) (scr : screen) : Prop :=
  scr_total scr = total ∧
  length (scr_tasks scr) = total ∧
  (0 ≤ scr_remaining scr)%Z ∧
  (Z.of_nat (scr_completed scr) + Z.of_nat (scr_timedOut scr)
   + scr_remaining scr = Z.of_nat total)%Z.

(** What the events after the end of the batch leave as it is. *)
Definition settled (s s' : master) : Prop :=
  taskStatus s' = taskStatus s ∧
  taskQueue s' = taskQueue s ∧
  inProgress s' = inProgress s ∧
  completedTasks s' = completedTasks s ∧
  timedOutTasks s' = timedOutTasks s ∧
  totalProcessedTasks s' = totalProcessedTasks s ∧
  refresh s' = refresh s ∧
  workers s' ⊆ workers s ∧
  sends (output s') = sends (output s) ∧
  forks (output s') = forks (output s) ∧
  shutdowns (output s') = shutdowns (output s).

(** Every job in progress has an armed timer. *)
Definition each_has_timer (s : master) : Prop :=
  ∀ i, i ∈ inProgress s → ∃ w, (i, w) ∈ timers s.

(** Every promise [processUrl] awaits for this job is fulfilled. *)
Definition all_fulfil (env : call → settles) (u dir file : string) : Prop :=
  env Launch = Fulfils ∧ env NewPage = Fulfils ∧ env (Goto u) = Fulfils ∧
  env AutoScroll = Fulfils ∧ env WaitForComplete = Fulfils ∧
  env (Pdf dir file) = Fulfils ∧ env CloseBrowser = Fulfils.

(** The milestones [processUrl] reports. *)
Definition milestones : list nat := [10; 30; 50; 70; 90].

(** The workers killed, in order. *)
Fixpoint kills (out : list effect) : list nat :=
  match out with
  | [] => []
  | Kill w :: out' => w :: kills out'
  | _ :: out' => kills out'
  end.


(** * Properties *)

(** ** Unfolding the handler monad *)

Ltac munfold :=
  unfold mbind, M_bind, mret, M_ret, gets, emit, modify, throw.

(** Reading a field of an updated state, without unfolding anything else. *)
Ltac fields :=
  cbn [urls taskStatus workerStatus pdfInfo completedTasks timedOutTasks
       totalProcessedTasks taskQueue startTimes inProgress workers nextId
       onlineHooks timers refresh output exited disconnected
       set_taskStatus set_workerStatus set_timedOutTasks
       set_totalProcessedTasks set_taskQueue set_startTimes set_inProgress
       set_workers set_nextId set_onlineHooks set_timers set_refresh
       set_output set_exited set_disconnected state_of].

Ltac fields_in H :=
  cbn [urls taskStatus workerStatus pdfInfo completedTasks timedOutTasks
       totalProcessedTasks taskQueue startTimes inProgress workers nextId
       onlineHooks timers refresh output exited disconnected
       set_taskStatus set_workerStatus set_timedOutTasks
       set_totalProcessedTasks set_taskQueue set_startTimes set_inProgress
       set_workers set_nextId set_onlineHooks set_timers set_refresh
       set_output set_exited set_disconnected state_of] in H.

(** The same through the written-out states. *)
Ltac states :=
  unfold checked, shut_down, marked, armed, started, dequeued, forked,
    exit_logged;
  fields.

Ltac states_in H :=
  unfold checked, shut_down, marked, armed, started, dequeued, forked,
    exit_logged in H;
  fields_in H.

(** ** What each function does, case by case *)

Lemma bind_Ok {A B} (m : M A) (f : A → M B) s a s' :
  m s = Ok a s' → (m ≫= f) s = f a s'.
Proof. intros H. munfold. by rewrite H. Qed.

Lemma assignTask_empty now w s :
  taskQueue s = [] → assignTask now w s = Ok () s.
Proof. intros H. unfold assignTask. munfold. by rewrite H. Qed.

Lemma assignTask_sent now w s t rest e :
  taskQueue s = t :: rest → taskStatus s !! index t = Some e → w ∈ workers s →
  assignTask now w s = Ok () (armed w t (started now t rest e s)).
Proof.
  intros Hq He Hw. unfold assignTask, setStatusProgress, send, setTimeout.
  munfold. rewrite Hq. cbn. rewrite He. cbn.
  rewrite decide_True by done. cbn.
  unfold armed, started, dequeued, set_output. cbn. by rewrite <-app_assoc.
Qed.

Lemma assignTask_no_worker now w s t rest e :
  taskQueue s = t :: rest → taskStatus s !! index t = Some e → w ∉ workers s →
  assignTask now w s = Throw TypeError (started now t rest e s).
Proof.
  intros Hq He Hw. unfold assignTask, setStatusProgress, send, setTimeout.
  munfold. rewrite Hq. cbn. rewrite He. cbn.
  by rewrite decide_False by done.
Qed.

Lemma assignTask_no_entry now w s t rest :
  taskQueue s = t :: rest → taskStatus s !! index t = None →
  assignTask now w s = Throw TypeError (dequeued now t rest s).
Proof.
  intros Hq He. unfold assignTask, setStatusProgress.
  munfold. rewrite Hq. cbn. by rewrite He.
Qed.

Lemma markTimedOut_Ok idx s e :
  taskStatus s !! idx = Some e → markTimedOut idx s = Ok () (marked idx e s).
Proof.
  intros He. unfold markTimedOut, setStatusProgress. munfold. cbn.
  by rewrite He.
Qed.

Lemma killAll_Ok ids s :
  killAll ids s = Ok () (set_output (output s ++ (Kill <$> ids)) s).
Proof.
  revert s. induction ids as [|w ids IH]; intros s; cbn.
  - munfold. rewrite app_nil_r. by destruct s.
  - munfold. rewrite IH. unfold set_output. cbn. by rewrite <-app_assoc.
Qed.

Lemma checkCompletion_fires s :
  totalProcessedTasks s = length (urls s) →
  checkCompletion s = Ok () (shut_down s).
Proof.
  intros H. unfold checkCompletion, updateConsole. munfold.
  rewrite decide_True by done. fields. rewrite killAll_Ok.
  unfold shut_down, shutdown_effects, final_screen. fields.
  by rewrite <-!app_assoc.
Qed.

Lemma checkCompletion_idle s :
  totalProcessedTasks s ≠ length (urls s) → checkCompletion s = Ok () s.
Proof.
  intros H. unfold checkCompletion. munfold. by rewrite decide_False by done.
Qed.

Lemma onTimeout_stale now idx w s :
  idx ∉ inProgress s → onTimeout now idx w s = Ok () s.
Proof. intros H. unfold onTimeout. munfold. by rewrite decide_False by done. Qed.

Lemma onTimeout_live now idx w s s1 s2 :
  idx ∈ inProgress s → markTimedOut idx s = Ok () s1 →
  checkCompletion s1 = Ok () s2 →
  onTimeout now idx w s = assignTask now w s2.
Proof.
  intros Hin H1 H2. unfold onTimeout. munfold.
  rewrite decide_True by done. by rewrite H1, H2.
Qed.

Lemma forkWorker_Ok s : forkWorker s = Ok () (forked s).
Proof. reflexivity. Qed.

Lemma forkLoop_Ok n s : forkLoop n s = Ok () (Nat.iter n forked s).
Proof.
  revert s. induction n as [|n IH]; intros s; [done|].
  cbn [forkLoop]. erewrite bind_Ok by apply forkWorker_Ok.
  rewrite IH. by rewrite Nat.iter_succ_r.
Qed.

Lemma init_eq us n : init us n = Nat.iter n forked (fresh us).
Proof. unfold init. by rewrite forkLoop_Ok. Qed.

Lemma onExit_respawn w s :
  work_remains s →
  onExit w s =
  Ok () (forked (set_output (output (exit_logged w s) ++ [Log LStartingNewWorker])
                   (exit_logged w s))).
Proof.
  intros H. unfold onExit. munfold. cbn.
  rewrite decide_True by done.
  unfold forkWorker. munfold. cbn. unfold forked, exit_logged, set_output. cbn.
  by rewrite <-!app_assoc.
Qed.

Lemma onExit_quiet w s :
  ¬ work_remains s → onExit w s = Ok () (exit_logged w s).
Proof.
  intros H. unfold onExit. munfold. cbn.
  by rewrite decide_False by done.
Qed.

(** ** The invariant is kept *)

Lemma initial_queue_lookup us k :
  initial_queue us !! k = (λ u, Task u k) <$> us !! k.
Proof. unfold initial_queue. by rewrite list_lookup_imap. Qed.

Lemma inv_head us k s t rest :
  inv_at us k s → taskQueue s = t :: rest →
  k < length us ∧ index t = k ∧ us !! k = Some (url t) ∧
  rest = drop (S k) (initial_queue us).
Proof.
  intros I Hq. rewrite (inv_queue _ _ _ I) in Hq.
  assert (initial_queue us !! k = Some t) as Hk.
  { rewrite <-(Nat.add_0_r k), <-lookup_drop, Hq. done. }
  rewrite initial_queue_lookup in Hk.
  destruct (us !! k) as [u|] eqn:Hu; simplify_eq/=.
  split; [by eapply lookup_lt_Some|]. split; [done|]. split; [done|].
  rewrite <-(Nat.add_1_r k), <-drop_drop, Hq. done.
Qed.

Lemma inv_fresh us : inv_at us 0 (fresh us).
Proof.
  split; cbn; try done.
  - lia.
  - by rewrite length_imap.
  - intros i Hi. rewrite list_lookup_imap.
    destruct (lookup_lt_is_Some_2 us i Hi) as [u ->]. cbn.
    unfold view. by rewrite decide_True by lia.
Qed.

Lemma size_pos_of_elem (X : gset nat) x : x ∈ X → 0 < size X.
Proof.
  intros Hx. assert (size X ≠ 0); [|lia].
  apply size_non_empty_iff. set_solver.
Qed.

Lemma inv_forked us k s : inv_at us k s → inv_at us k (forked s).
Proof. intros []. by split. Qed.

Lemma inv_shut_down us k s : inv_at us k s → inv_at us k (shut_down s).
Proof. intros []. by split. Qed.

Lemma inv_started us k s now t rest w :
  inv_at us k s → taskQueue s = t :: rest →
  inv_at us (S k)
    (armed w t (started now t rest (view k (inProgress s) k) s)).
Proof.
  intros I Hq. destruct (inv_head _ _ _ _ _ I Hq) as (Hk & Hi & Hu & Hrest).
  destruct I as [? ? ? Hip ? Htab Hcount ? ? ?].
  assert (k ∉ inProgress s) as Hfresh by (intros ?%Hip; lia).
  split; cbn; try done.
  - intros i [->%elem_of_singleton| ?%Hip]%elem_of_union; lia.
  - by rewrite length_insert.
  - intros i Hlt. rewrite Hi. destruct (decide (i = k)) as [->|Hne].
    + rewrite list_lookup_insert_eq by lia. unfold view.
      rewrite decide_True by lia. cbn.
      rewrite decide_False by lia. by rewrite decide_True by set_solver.
    + rewrite list_lookup_insert_ne by done. rewrite Htab by done.
      f_equal. unfold view.
      destruct (decide (k ≤ i)), (decide (S k ≤ i)); try lia; [done|].
      destruct (decide (i ∈ inProgress s)),
        (decide (i ∈ {[k]} ∪ inProgress s)); try done; set_solver.
  - rewrite Hi, size_union by set_solver. rewrite size_singleton. lia.
Qed.

Lemma inv_marked us k s idx :
  inv_at us k s → idx ∈ inProgress s →
  inv_at us k (marked idx (view k (inProgress s) idx) s).
Proof.
  intros [? ? ? Hip ? Htab Hcount ? ? ?] Hin.
  pose proof (Hip _ Hin) as Hlt.
  split; cbn; try done.
  - intros i ?%elem_of_difference. naive_solver.
  - by rewrite length_insert.
  - intros i Hi. destruct (decide (i = idx)) as [->|Hne].
    + rewrite list_lookup_insert_eq by lia. unfold view.
      rewrite decide_False by lia. cbn. rewrite decide_True by done. cbn.
      rewrite decide_False by lia. by rewrite decide_False by set_solver.
    + rewrite list_lookup_insert_ne by done. rewrite Htab by done.
      f_equal. unfold view.
      destruct (decide (k ≤ i)); [done|].
      destruct (decide (i ∈ inProgress s)),
        (decide (i ∈ inProgress s ∖ {[idx]})); try done; set_solver.
  - assert (size (inProgress s) = S (size (inProgress s ∖ {[idx]}))).
    { rewrite (size_difference (inProgress s) {[idx]}) by set_solver.
      rewrite size_singleton. pose proof (size_pos_of_elem _ _ Hin). lia. }
    lia.
  - lia.
Qed.

Lemma assignTask_outcome us k s now w :
  inv_at us k s → assign_outcome k now w s (assignTask now w s).
Proof.
  intros I. destruct (taskQueue s) as [|t rest] eqn:Hq.
  - rewrite assignTask_empty by done. by constructor.
  - destruct (inv_head _ _ _ _ _ I Hq) as (Hk & Hi & _ & _).
    pose proof (inv_table _ _ _ I k Hk) as He. rewrite <-Hi in He at 1.
    destruct (decide (w ∈ workers s)).
    + erewrite assignTask_sent by done. by econstructor.
    + erewrite assignTask_no_worker by done. by econstructor.
Qed.

Lemma inv_at_core us k s s' :
  inv_at us k s →
  urls s' = urls s → taskQueue s' = taskQueue s →
  inProgress s' = inProgress s → taskStatus s' = taskStatus s →
  timedOutTasks s' = timedOutTasks s → completedTasks s' = completedTasks s →
  totalProcessedTasks s' = totalProcessedTasks s → pdfInfo s' = pdfInfo s →
  inv_at us k s'.
Proof.
  intros [] E1 E2 E3 E4 E5 E6 E7 E8.
  split; rewrite ?E1, ?E2, ?E3, ?E4, ?E5, ?E6, ?E7, ?E8; done.
Qed.

Lemma assignTask_inv us s now w :
  inv us s → inv us (state_of (assignTask now w s)).
Proof.
  intros [k I]. destruct (assignTask_outcome _ _ _ now w I) as [|t rest Hq|t rest Hq]; cbn.
  - by exists k.
  - exists (S k). by apply inv_started.
  - exists (S k).
    by eapply (inv_at_core _ _ _ _ (inv_started _ _ _ now _ _ w I Hq)).
Qed.

Lemma checkCompletion_checked s : checkCompletion s = Ok () (checked s).
Proof.
  unfold checked. case_decide.
  - by apply checkCompletion_fires.
  - by apply checkCompletion_idle.
Qed.

Lemma inv_checked us k s : inv_at us k s → inv_at us k (checked s).
Proof. unfold checked. case_decide; [apply inv_shut_down|done]. Qed.

Lemma onTimeout_inv_live us k s now idx w :
  inv_at us k s → idx ∈ inProgress s →
  onTimeout now idx w s =
  assignTask now w (checked (marked idx (view k (inProgress s) idx) s)).
Proof.
  intros I Hin.
  assert (idx < length us) as Hlt.
  { pose proof (inv_inProgress _ _ _ I _ Hin). pose proof (inv_k _ _ _ I). lia. }
  eapply onTimeout_live; [done| |apply checkCompletion_checked].
  apply markTimedOut_Ok. by apply (inv_table _ _ _ I).
Qed.

Lemma handle_inv us s now e :
  inv us s → inv us (state_of (handle now e s)).
Proof.
  intros I. destruct e as [w| |idx w|w|w m|w]; cbn [handle].
  - munfold.
    apply assignTask_inv. destruct I as [k I]. exists k.
    by eapply inv_at_core.
  - destruct I as [k I]. exists k. by eapply inv_at_core.
  - munfold.
    set (s0 := set_timers _ s).
    assert (inv us s0) as [k I0].
    { destruct I as [k I]. exists k. by eapply inv_at_core. }
    destruct (decide (idx ∈ inProgress s0)) as [Hin|Hout].
    + erewrite onTimeout_inv_live by done.
      apply assignTask_inv. exists k.
      by apply inv_checked, inv_marked.
    + rewrite onTimeout_stale by done. by exists k.
  - munfold.
    set (s0 := set_onlineHooks _ _).
    assert (inv us s0) as [k I0].
    { destruct I as [k I]. exists k. by eapply inv_at_core. }
    destruct (decide (work_remains s0)).
    + rewrite onExit_respawn by done. exists k.
      apply inv_forked. by eapply inv_at_core.
    + rewrite onExit_quiet by done. exists k. by eapply inv_at_core.
  - done.
  - munfold. destruct I as [k I]. exists k. by eapply inv_at_core.
Qed.

Lemma step_cases now e s :
  step now e s = handle now e s ∨ step now e s = Ok () s.
Proof. unfold step. destruct (enabled e s); auto. Qed.

(** A property of states that every handler keeps, whatever its outcome,
    holds at the end of every run. *)
Lemma run_preserves (P : master → Prop) :
  (∀ now e s, P s → P (state_of (handle now e s))) →
  ∀ evs s, P s → P (state_of (run evs s)).
Proof.
  intros Hstep evs. induction evs as [|[now e] evs IH]; intros s HP; [done|].
  cbn [run]. munfold.
  assert (P (state_of (step now e s))) as HP'.
  { destruct (step_cases now e s) as [-> | ->]; [by apply Hstep|done]. }
  destruct (step now e s) as [[] s'|x s']; cbn in *; [by apply IH|done].
Qed.

(** As [run_preserves], for properties that need the event to have a
    source. *)
Lemma run_preserves_enabled (P : master → Prop) :
  (∀ now e s, P s → enabled e s = true → P (state_of (handle now e s))) →
  ∀ evs s, P s → P (state_of (run evs s)).
Proof.
  intros Hstep evs. induction evs as [|[now e] evs IH]; intros s HP; [done|].
  cbn [run]. munfold.
  assert (P (state_of (step now e s))) as HP'.
  { unfold step. destruct (enabled e s) eqn:He; [by apply Hstep|done]. }
  destruct (step now e s) as [[] s'|x s']; cbn in *; [by apply IH|done].
Qed.

Lemma init_inv us n : inv us (init us n).
Proof.
  rewrite init_eq. exists 0. induction n as [|n IH]; cbn.
  - apply inv_fresh.
  - by apply inv_forked.
Qed.

Lemma run_inv us n evs : inv us (state_of (run evs (init us n))).
Proof.
  apply (run_preserves (inv us)); [intros; by apply handle_inv|apply init_inv].
Qed.

Lemma reachable_inv us n s : reachable us n s → inv us s.
Proof. intros [evs H]. pose proof (run_inv us n evs) as I. by rewrite H in I. Qed.

(** ** Worker ids are fresh and the shutdown sequence runs at most once *)

Lemma shutdowns_app l1 l2 : shutdowns (l1 ++ l2) = shutdowns l1 + shutdowns l2.
Proof. induction l1 as [|[] l1 IH]; cbn; lia. Qed.

Lemma forks_app l1 l2 : forks (l1 ++ l2) = forks l1 + forks l2.
Proof. induction l1 as [|[] l1 IH]; cbn; lia. Qed.

Lemma shutdowns_kills ids : shutdowns (Kill <$> ids) = 0.
Proof. by induction ids. Qed.

Lemma forks_kills ids : forks (Kill <$> ids) = 0.
Proof. by induction ids. Qed.

Lemma shutdowns_shutdown_effects s : shutdowns (shutdown_effects s) = 1.
Proof. unfold shutdown_effects. rewrite shutdowns_app, shutdowns_kills. done. Qed.

Lemma forks_shutdown_effects s : forks (shutdown_effects s) = 0.
Proof. unfold shutdown_effects. rewrite forks_app, forks_kills. done. Qed.

Lemma aux_same s s' :
  workers s' = workers s → nextId s' = nextId s → urls s' = urls s →
  totalProcessedTasks s' = totalProcessedTasks s →
  shutdowns (output s') = shutdowns (output s) →
  aux s → aux s'.
Proof.
  intros E1 E2 E3 E4 E5 [F O]. split.
  - unfold ids_fresh. by rewrite E1, E2.
  - unfold at_most_once. by rewrite E3, E4, E5.
Qed.

Lemma aux_started now t rest e s : aux s → aux (started now t rest e s).
Proof. by apply aux_same. Qed.

Lemma aux_armed w t s : aux s → aux (armed w t s).
Proof.
  apply aux_same; try done. states. rewrite shutdowns_app. cbn [shutdowns]. lia.
Qed.

Lemma aux_checked_marked idx e s : aux s → aux (checked (marked idx e s)).
Proof.
  intros [F [O1 O2]]. split; [unfold checked; by case_decide|].
  unfold at_most_once, checked. case_decide as Hc; states_in Hc; states.
  - rewrite !shutdowns_app, shutdowns_shutdown_effects. cbn [shutdowns].
    rewrite O2 by lia. split; [lia|]. intros ?. lia.
  - rewrite shutdowns_app. cbn [shutdowns]. split; [lia|].
    intros ?. rewrite O2 by lia. done.
Qed.

Lemma aux_forked s : aux s → aux (forked s).
Proof.
  intros [F [O1 O2]]. split.
  - intros w. states.
    intros [->%elem_of_singleton|?%F]%elem_of_union; lia.
  - unfold at_most_once. states. rewrite shutdowns_app. cbn [shutdowns].
    split; [lia|]. intros ?. rewrite O2 by lia. done.
Qed.

Lemma assignTask_aux us s now w :
  inv us s → aux s → aux (state_of (assignTask now w s)).
Proof.
  intros [k I] A.
  destruct (assignTask_outcome _ _ _ now w I) as [|t rest Hq|t rest Hq]; cbn.
  - done.
  - by apply aux_armed, aux_started.
  - by apply aux_started.
Qed.

Lemma handle_aux us s now e :
  inv us s → aux s → aux (state_of (handle now e s)).
Proof.
  intros I A. destruct e as [w| |idx w|w|w m|w]; cbn [handle].
  - munfold. eapply assignTask_aux.
    + destruct I as [k I]. exists k. by eapply inv_at_core.
    + by eapply aux_same.
  - eapply aux_same; [..|done]; try done.
    unfold updateConsole. munfold. fields. rewrite shutdowns_app.
    cbn [shutdowns]. lia.
  - munfold.
    set (s0 := set_timers _ s).
    assert (inv us s0) as [k I0].
    { destruct I as [k I]. exists k. by eapply inv_at_core. }
    assert (aux s0) as A0 by by eapply aux_same.
    destruct (decide (idx ∈ inProgress s0)) as [Hin|Hout].
    + erewrite onTimeout_inv_live by done.
      eapply assignTask_aux.
      * exists k. by apply inv_checked, inv_marked.
      * by apply aux_checked_marked.
    + by rewrite onTimeout_stale by done.
  - munfold.
    set (s0 := set_onlineHooks _ _).
    assert (aux s0) as A0.
    { destruct A as [F O]. split; [|done].
      intros x. subst s0. fields.
      case_decide; [intros [?%F _]%elem_of_difference|intros ?%F]; done. }
    destruct (decide (work_remains s0)).
    + rewrite onExit_respawn by done. cbn [state_of].
      apply aux_forked. eapply aux_same; [..|exact A0]; try done.
      states. rewrite !shutdowns_app. cbn [shutdowns]. lia.
    + rewrite onExit_quiet by done. eapply aux_same; [..|exact A0]; try done.
      states. rewrite !shutdowns_app. cbn [shutdowns]. lia.
  - done.
  - munfold. destruct A as [F O]. split; [|done]. intros x. fields.
    case_decide; [intros [?%F _]%elem_of_difference|intros ?%F]; done.
Qed.

Lemma aux_fresh us : aux (fresh us).
Proof.
  split; [|split; cbn; [lia|done]].
  intros w. cbn. set_solver.
Qed.

Lemma init_aux us n : aux (init us n).
Proof.
  rewrite init_eq. induction n as [|n IH]; cbn.
  - apply aux_fresh.
  - by apply aux_forked.
Qed.

Lemma run_inv_aux us n evs :
  let s := state_of (run evs (init us n)) in inv us s ∧ aux s.
Proof.
  apply (run_preserves (λ s, inv us s ∧ aux s)).
  - intros now e s [I A]. split; [by apply handle_inv|by eapply handle_aux].
  - split; [apply init_inv|apply init_aux].
Qed.

Lemma reachable_aux us n s : reachable us n s → aux s.
Proof.
  intros [evs H]. pose proof (run_inv_aux us n evs) as [_ A]. by rewrite H in A.
Qed.

(** ** The task table against the queue and the in-progress set *)

Lemma inv_entry us k s i e :
  inv_at us k s → taskStatus s !! i = Some e → e = view k (inProgress s) i.
Proof.
  intros I He. pose proof (lookup_lt_Some _ _ _ He) as Hlt.
  rewrite (inv_length _ _ _ I) in Hlt.
  rewrite (inv_table _ _ _ I i Hlt) in He. congruence.
Qed.

Lemma inv_in_progress us k s i :
  inv_at us k s →
  i ∈ inProgress s ↔ ∃ e, taskStatus s !! i = Some e ∧ status_of e = InProgress.
Proof.
  intros I. split.
  - intros Hin. pose proof (inv_inProgress _ _ _ I _ Hin) as Hlt.
    pose proof (inv_k _ _ _ I) as Hk.
    eexists. split; [apply (inv_table _ _ _ I); lia|].
    unfold view. rewrite decide_False by lia. by rewrite decide_True by done.
  - intros (e & He & Hst). rewrite (inv_entry _ _ _ _ _ I He) in Hst.
    unfold view in Hst. by repeat case_decide.
Qed.

Lemma inv_queue_length us k s :
  inv_at us k s → length (taskQueue s) = length us - k.
Proof.
  intros I. rewrite (inv_queue _ _ _ I), length_drop.
  unfold initial_queue. by rewrite length_imap.
Qed.

Lemma inv_pending us k s :
  inv_at us k s →
  0 < length (taskQueue s) ↔
  ∃ i e, taskStatus s !! i = Some e ∧ status_of e = Pending.
Proof.
  intros I. rewrite (inv_queue_length _ _ _ I). split.
  - intros Hk. exists k. eexists. split; [apply (inv_table _ _ _ I); lia|].
    unfold view. by rewrite decide_True by lia.
  - intros (i & e & He & Hst). pose proof (lookup_lt_Some _ _ _ He) as Hlt.
    rewrite (inv_length _ _ _ I) in Hlt.
    rewrite (inv_entry _ _ _ _ _ I He) in Hst.
    unfold view in Hst. repeat case_decide; try done; lia.
Qed.

Lemma inv_work_remains us k s :
  inv_at us k s →
  work_remains s ↔
  ∃ i e, taskStatus s !! i = Some e ∧
         (status_of e = Pending ∨ status_of e = InProgress).
Proof.
  intros I. unfold work_remains. rewrite (inv_pending _ _ _ I). split.
  - intros [(i & e & He & Hst)|Hsz]; [by eauto 6|].
    apply size_pos_elem_of in Hsz as [i Hi].
    apply (inv_in_progress _ _ _ _ I) in Hi as (e & He & Hst). eauto 6.
  - intros (i & e & He & [Hst|Hst]); [by eauto 6|]. right.
    apply (size_pos_of_elem _ i), (inv_in_progress _ _ _ _ I). eauto.
Qed.

(** When the count of processed tasks has reached the number of jobs,
    nothing is queued, nothing is in progress and every job has timed
    out. *)
Lemma inv_drained us k s :
  inv_at us k s → totalProcessedTasks s = length us →
  taskQueue s = [] ∧ inProgress s = ∅ ∧
  ∀ i e, taskStatus s !! i = Some e → status_of e = TimedOut.
Proof.
  intros I Ht.
  pose proof (inv_k _ _ _ I). pose proof (inv_count _ _ _ I).
  pose proof (inv_total _ _ _ I).
  assert (k = length us) as -> by lia.
  assert (inProgress s = ∅) as Hip.
  { apply leibniz_equiv, size_empty_iff. lia. }
  split; [|split; [done|]].
  - apply length_zero_iff_nil. rewrite (inv_queue_length _ _ _ I). lia.
  - intros i e He. pose proof (lookup_lt_Some _ _ _ He) as Hlt.
    rewrite (inv_length _ _ _ I) in Hlt.
    rewrite (inv_entry _ _ _ _ _ I He). unfold view.
    rewrite decide_False by lia. rewrite Hip. by rewrite decide_False by set_solver.
Qed.

Lemma elem_of_keys_in_order w ks : w ∈ keys_in_order ks ↔ w ∈ ks.
Proof.
  unfold keys_in_order. rewrite merge_sort_Permutation. apply elem_of_elements.
Qed.

Lemma at_check_inv us n s1 : at_check us n s1 → inv us s1.
Proof.
  intros (s & idx & Hr & Hin & Hm). destruct (reachable_inv _ _ _ Hr) as [k I].
  assert (idx < length us) as Hlt.
  { pose proof (inv_inProgress _ _ _ I _ Hin). pose proof (inv_k _ _ _ I). lia. }
  rewrite (markTimedOut_Ok _ _ _ (inv_table _ _ _ I idx Hlt)) in Hm.
  injection Hm as <-. exists k. by apply inv_marked.
Qed.
(** * The claims *)

(** ** [assignTask] *)





(** [checkCompletion] changes neither the table nor the counters nor the sets. *)
Lemma checked_fields s :
  taskStatus (checked s) = taskStatus s ∧
  timedOutTasks (checked s) = timedOutTasks s ∧
  totalProcessedTasks (checked s) = totalProcessedTasks s ∧
  completedTasks (checked s) = completedTasks s ∧
  inProgress (checked s) = inProgress s ∧
  workers (checked s) = workers s.
Proof. unfold checked. by case_decide. Qed.

(** What a call of [assignTask] leaves alone, whatever its outcome: the
    counters, and the entry of every task already taken from the queue. *)
Lemma assignTask_keeps us k s now w :
  inv_at us k s →
  let s' := state_of (assignTask now w s) in
  completedTasks s' = completedTasks s ∧
  timedOutTasks s' = timedOutTasks s ∧
  totalProcessedTasks s' = totalProcessedTasks s ∧
  ∀ i, i < k → taskStatus s' !! i = taskStatus s !! i.
Proof.
  intros I. destruct (assignTask_outcome _ _ _ now w I) as [|t rest Hq Hi|t rest Hq Hi];
    states; repeat split; try done;
    intros i Hlt; rewrite list_lookup_insert_ne; (done || lia).
Qed.

(** ** The timeout callback *)

(** C5: when the timer of a job fires while the job is in progress, the
    callback marks it timed out with progress 0, adds one to the timed-out
    and total-processed counters, runs the completion check and then calls
    [assignTask] for the same worker id, with no look at the worker; when
    the job is not in progress, the callback changes nothing. *)
Theorem timeout_marks_checks_reassigns us n s now idx w :
  reachable us n s →
  ((∃ e, taskStatus s !! idx = Some e ∧ status_of e = InProgress) →
   ∃ s1 s2,
     markTimedOut idx s = Ok () s1 ∧
     taskStatus s1 !! idx = Some (Entry (idx + 1) TimedOut 0 "-") ∧
     timedOutTasks s1 = timedOutTasks s + 1 ∧
     totalProcessedTasks s1 = totalProcessedTasks s + 1 ∧
     checkCompletion s1 = Ok () s2 ∧
     onTimeout now idx w s = assignTask now w s2 ∧
     let s' := state_of (onTimeout now idx w s) in
     taskStatus s' !! idx = Some (Entry (idx + 1) TimedOut 0 "-") ∧
     timedOutTasks s' = timedOutTasks s + 1 ∧
     totalProcessedTasks s' = totalProcessedTasks s + 1) ∧
  ((¬ ∃ e, taskStatus s !! idx = Some e ∧ status_of e = InProgress) →
   onTimeout now idx w s = Ok () s).
Proof.
  intros Hr. destruct (reachable_inv _ _ _ Hr) as [k I]. split.
  - intros Hin%(inv_in_progress _ _ _ _ I).
    pose proof (inv_inProgress _ _ _ I _ Hin) as Hlt.
    pose proof (inv_k _ _ _ I) as Hk.
    pose proof (inv_marked _ _ _ _ I Hin) as I1.
    set (s1 := marked idx (view k (inProgress s) idx) s) in *.
    assert (taskStatus s1 !! idx = Some (Entry (idx + 1) TimedOut 0 "-")) as He1.
    { rewrite (inv_table _ _ _ I1) by lia. unfold view.
      rewrite decide_False by lia. subst s1. states.
      by rewrite decide_False by set_solver. }
    destruct (checked_fields s1) as (Ets & Eto & Etp & _).
    pose proof (assignTask_keeps us k (checked s1) now w (inv_checked _ _ _ I1))
      as (_ & Kto & Ktp & Kts).
    exists s1, (checked s1).
    split; [apply markTimedOut_Ok, (inv_table _ _ _ I); lia|].
    split; [done|]. split; [done|]. split; [done|].
    split; [apply checkCompletion_checked|].
    split; [exact (onTimeout_inv_live _ _ _ _ _ _ I Hin)|].
    cbv zeta. rewrite (onTimeout_inv_live _ _ _ _ _ _ I Hin). fold s1.
    rewrite Kts by done. rewrite Kto, Ktp, Ets, Eto, Etp. done.
  - intros Hno. apply onTimeout_stale.
    by rewrite (inv_in_progress _ _ _ _ I).
Qed.

(** The timer of the only job of a run fires while the job is in progress. *)
Lemma timeout_marks_checks_reassigns_witness :
  taskStatus (state_of (onTimeout 300000 0 1 one_job_running)) !! 0
  = Some (Entry 1 TimedOut 0 "-").
Proof.
  assert (reachable ["https://example.org/"%string] 1 one_job_running) as Hr
    by (exists [(0%Z, WorkerOnline 1)]; vm_compute; reflexivity).
  destruct (timeout_marks_checks_reassigns _ _ _ 300000%Z 0 1 Hr) as [H _].
  destruct H as (s1 & s2 & _ & _ & _ & _ & _ & _ & Hfinal & _).
  - exists (Entry 1 InProgress 10 "-"). split; vm_compute; reflexivity.
  - exact Hfinal.
Defined.

(** ** The completion check *)

(** C3: at every call of [checkCompletion] in a run over [N] jobs, the
    total-processed counter is the sum of the completed and timed-out
    counters, and the shutdown sequence runs exactly when it equals [N]:
    then no job is pending or in progress, the refresh interval is cleared,
    the final screen and counts are written, and every worker still in
    [cluster.workers] is killed. *)
Theorem checkCompletion_fires_iff_all_processed us n s1 :
  at_check us n s1 →
  totalProcessedTasks s1 = completedTasks s1 + timedOutTasks s1 ∧
  (totalProcessedTasks s1 ≠ length us → checkCompletion s1 = Ok () s1) ∧
  (totalProcessedTasks s1 = length us →
     (∀ i e, taskStatus s1 !! i = Some e →
             status_of e ≠ Pending ∧ status_of e ≠ InProgress) ∧
     taskQueue s1 = [] ∧ inProgress s1 = ∅ ∧
     ∃ s2, checkCompletion s1 = Ok () s2 ∧
       refresh s2 = false ∧
       output s2 = output s1
         ++ [ClearInterval; Render (final_screen s1); Log LAllCompleted;
             Log (LTotalTasks (length us));
             Log (LSuccessfullyCompleted (completedTasks s1));
             Log (LTimedOutTasks (timedOutTasks s1)); Log LShuttingDown]
         ++ (Kill <$> keys_in_order (workers s1)) ∧
       shutdowns (output s2) = shutdowns (output s1) + 1 ∧
       ∀ w, w ∈ workers s1 → Kill w ∈ output s2).
Proof.
  intros [k I]%at_check_inv.
  pose proof (inv_urls _ _ _ I) as Hu.
  split.
  { rewrite (inv_completed _ _ _ I). apply (inv_total _ _ _ I). }
  split.
  { intros Hne. apply checkCompletion_idle. by rewrite Hu. }
  intros Hall. destruct (inv_drained _ _ _ I Hall) as (Hq & Hip & Hst).
  split; [|split; [done|split; [done|]]].
  { intros i e He. rewrite (Hst i e He). done. }
  exists (shut_down s1). split; [apply checkCompletion_fires; by rewrite Hu|].
  states. split; [done|]. split; [unfold shutdown_effects; by rewrite Hu|].
  split.
  { rewrite shutdowns_app, shutdowns_shutdown_effects. done. }
  intros w Hw. apply elem_of_app. right. unfold shutdown_effects.
  apply elem_of_app. right. apply list_elem_of_fmap. exists w.
  split; [done|]. by apply elem_of_keys_in_order.
Qed.

(** The check in the timeout callback of the only job of a run. *)
Lemma checkCompletion_fires_iff_all_processed_witness :
  ∃ s2, checkCompletion one_job_at_check = Ok () s2 ∧ refresh s2 = false ∧
        Kill 1 ∈ output s2.
Proof.
  assert (at_check ["https://example.org/"%string] 1 one_job_at_check) as Hc.
  { exists one_job_running, 0. split; [|split].
    - exists [(0%Z, WorkerOnline 1)]. vm_compute. reflexivity.
    - vm_compute. reflexivity.
    - vm_compute. reflexivity. }
  destruct (checkCompletion_fires_iff_all_processed _ _ _ Hc) as (_ & _ & H).
  destruct H as (_ & _ & _ & s2 & Hs2 & Hr & _ & _ & Hk).
  - vm_compute. reflexivity.
  - exists s2. split; [exact Hs2|]. split; [exact Hr|]. apply Hk.
    vm_compute. reflexivity.
Defined.

(** C4, as stated, fails: [checkCompletion] has no guard, so a second call
    in a state where the total-processed counter equals the number of jobs
    runs the shutdown sequence a second time. *)
Lemma checkCompletion_twice_fires_twice :
  totalProcessedTasks one_job_at_check = length (urls one_job_at_check) ∧
  fired_by (checkCompletion ;; checkCompletion) one_job_at_check = 2.
Proof. split; vm_compute; reflexivity. Qed.

(** C4, amended: in every run of the master, whatever the events and
    whether or not it ends in an exception, the shutdown sequence runs at
    most once, because the only call of [checkCompletion] follows an
    increment of the total-processed counter. *)
Theorem shutdown_at_most_once_per_run us n evs :
  shutdowns (output (state_of (run evs (init us n)))) ≤ 1.
Proof. by destruct (run_inv_aux us n evs) as (_ & _ & H & _). Qed.

(** ** The initial fork loop *)

Lemma iter_forked n s :
  forks (output (Nat.iter n forked s)) = forks (output s) + n ∧
  nextId (Nat.iter n forked s) = nextId s + n ∧
  workers (Nat.iter n forked s) = set_seq (nextId s) n ∪ workers s ∧
  onlineHooks (Nat.iter n forked s) = set_seq (nextId s) n ∪ onlineHooks s ∧
  taskQueue (Nat.iter n forked s) = taskQueue s.
Proof.
  induction n as [|n (IH1 & IH2 & IH3 & IH4 & IH5)].
  - cbn [Nat.iter nat_rect]. repeat split; try done; try lia; set_solver.
  - rewrite !Nat.iter_succ. set (s' := Nat.iter n forked s) in *.
    change (output (forked s')) with (output s' ++ [Fork (nextId s')]).
    change (nextId (forked s')) with (nextId s' + 1).
    change (workers (forked s')) with ({[nextId s']} ∪ workers s').
    change (onlineHooks (forked s')) with ({[nextId s']} ∪ onlineHooks s').
    change (taskQueue (forked s')) with (taskQueue s').
    rewrite forks_app, IH1, IH2, IH3, IH4, IH5. cbn [forks].
    rewrite !set_seq_S_end_union_L.
    repeat split; try done; try lia; set_solver.
Qed.

(** C7, as stated, fails: with one job on a four-processor host the
    master forks four workers, not [min 4 1]. *)
Lemma init_forks_more_than_jobs :
  forks (output (init ["https://example.org/"%string] 4)) = 4 ∧
  size (workers (init ["https://example.org/"%string] 4)) = 4 ∧
  Nat.min 4 (length (taskQueue (fresh ["https://example.org/"%string]))) = 1.
Proof. repeat split; vm_compute; reflexivity. Qed.

(** C7, amended: at startup the master forks exactly [numCPUs] workers,
    with ids 1 to [numCPUs], whatever the number of jobs; each gets an
    ['online'] listener and no job has left the queue yet. *)
Theorem init_forks_numCPUs us n :
  forks (output (init us n)) = n ∧
  workers (init us n) = set_seq 1 n ∧
  size (workers (init us n)) = n ∧
  onlineHooks (init us n) = workers (init us n) ∧
  taskQueue (init us n) = initial_queue us.
Proof.
  rewrite init_eq. destruct (iter_forked n (fresh us)) as (H1 & _ & H3 & H4 & H5).
  rewrite H1, H3, H4, H5. cbn [fresh forks workers onlineHooks output nextId taskQueue].
  rewrite !(right_id_L ∅ (∪)), size_set_seq. done.
Qed.

(** ** The ['exit'] handler *)

Lemma step_enabled now e s : enabled e s = true → step now e s = handle now e s.
Proof. intros H. unfold step. by rewrite H. Qed.

(** What [assignTask] and the body of the timeout callback leave alone of
    the runtime's view of the workers. *)
Lemma assignTask_flags us k s now w :
  inv_at us k s →
  let s' := state_of (assignTask now w s) in
  exited s' = exited s ∧ disconnected s' = disconnected s ∧
  nextId s' = nextId s ∧ workers s' = workers s.
Proof.
  intros I.
  by destruct (assignTask_outcome _ _ _ now w I) as [|t rest Hq Hi|t rest Hq Hi].
Qed.

Lemma checked_marked_flags idx e s :
  let s' := checked (marked idx e s) in
  exited s' = exited s ∧ disconnected s' = disconnected s ∧
  nextId s' = nextId s ∧ workers s' = workers s.
Proof. unfold checked. by case_decide. Qed.

Lemma handle_flags us s now e :
  inv us s → aux s → flags_known s → enabled e s = true →
  flags_known (state_of (handle now e s)).
Proof.
  intros I [F _] K Hen. unfold flags_known in *.
  destruct e as [w| |idx w|w|w m|w]; cbn [handle].
  - munfold. set (s0 := set_onlineHooks _ s). destruct I as [k I].
    assert (inv_at us k s0) as I0 by by eapply inv_at_core.
    destruct (assignTask_flags _ _ _ now w I0) as (-> & -> & -> & _). exact K.
  - exact K.
  - munfold. set (s0 := set_timers _ s). destruct I as [k I].
    assert (inv_at us k s0) as I0 by by eapply inv_at_core.
    destruct (decide (idx ∈ inProgress s0)) as [Hin|Hno].
    + rewrite (onTimeout_inv_live _ _ _ _ _ _ I0 Hin).
      set (s1 := marked idx _ s0).
      destruct (assignTask_flags us k (checked s1) now w
                  (inv_checked _ _ _ (inv_marked _ _ _ _ I0 Hin)))
        as (-> & -> & -> & _).
      subst s1.
      destruct (checked_marked_flags idx (view k (inProgress s0) idx) s0)
        as (-> & -> & -> & _). exact K.
    + rewrite onTimeout_stale by done. exact K.
  - apply bool_decide_eq_true in Hen as [Hw _]. apply F in Hw.
    munfold. set (s0 := set_onlineHooks _ _).
    assert (∀ x, x ∈ exited s0 ∪ disconnected s0 → x < nextId s0) as K0.
    { intros x. subst s0. fields.
      intros [[->%elem_of_singleton|Hx]%elem_of_union|Hx]%elem_of_union;
        [done|apply K; set_solver..]. }
    destruct (decide (work_remains s0)).
    + rewrite onExit_respawn by done. states. intros x Hx.
      apply K0 in Hx. lia.
    + rewrite onExit_quiet by done. states. exact K0.
  - exact K.
  - apply bool_decide_eq_true in Hen as [Hw _]. apply F in Hw.
    munfold. fields. intros x.
    intros [Hx|[->%elem_of_singleton|Hx]%elem_of_union]%elem_of_union;
      [apply K; set_solver|done|apply K; set_solver].
Qed.

Lemma run_flags us n evs : flags_known (state_of (run evs (init us n))).
Proof.
  refine (proj2 (run_preserves_enabled
    (λ s, (inv us s ∧ aux s) ∧ flags_known s) _ evs (init us n) _)).
  - intros now e s [[I A] K] Hen.
    split; [split; [by apply handle_inv|by eapply handle_aux]|].
    by eapply handle_flags.
  - split; [split; [apply init_inv|apply init_aux]|].
    intros x. rewrite init_eq.
    assert (exited (Nat.iter n forked (fresh us)) = ∅ ∧
            disconnected (Nat.iter n forked (fresh us)) = ∅) as [-> ->].
    { induction n as [|n IH]; [done|]. rewrite Nat.iter_succ. exact IH. }
    set_solver.
Qed.

Lemma reachable_flags us n s : reachable us n s → flags_known s.
Proof. intros [evs H]. pose proof (run_flags us n evs) as K. by rewrite H in K. Qed.

(** C8: when a live worker exits, its status entry is removed; if some job
    is pending or in progress the master forks exactly one worker, with a
    fresh id, whose ['online'] event calls [assignTask] for it; if no job
    is pending or in progress it forks none. *)
Theorem exit_respawns_iff_work_remains us n s now w :
  reachable us n s → w ∈ live s →
  ∃ s', step now (WorkerExit w) s = Ok () s' ∧
    workerStatus s' !! w = None ∧ (w ∉ live s') ∧
    ((∃ i e, taskStatus s !! i = Some e ∧
             (status_of e = Pending ∨ status_of e = InProgress)) →
       (nextId s ∉ workers s) ∧
       live s' = {[nextId s]} ∪ (live s ∖ {[w]}) ∧
       forks (output s') = forks (output s) + 1 ∧
       workerStatus s' !! nextId s = Some "Idle"%string ∧
       ∀ now', step now' (WorkerOnline (nextId s)) s' =
               assignTask now' (nextId s)
                 (set_onlineHooks (onlineHooks s' ∖ {[nextId s]}) s')) ∧
    ((¬ ∃ i e, taskStatus s !! i = Some e ∧
               (status_of e = Pending ∨ status_of e = InProgress)) →
       live s' = live s ∖ {[w]} ∧
       forks (output s') = forks (output s)).
Proof.
  intros Hr [Hw Hne]%elem_of_difference. destruct (reachable_inv _ _ _ Hr) as [k I].
  destruct (reachable_aux _ _ _ Hr) as [F _].
  pose proof (reachable_flags _ _ _ Hr) as K.
  pose proof (F _ Hw) as Hlt.
  assert (nextId s ∉ workers s) as Hfresh by (intros ?%F; lia).
  assert ((nextId s ∉ exited s) ∧ (nextId s ∉ disconnected s)) as [Hfe Hfd].
  { split; intros Hx; assert (nextId s < nextId s); try lia; apply K; set_solver. }
  assert (nextId s ≠ w) as Hnw by lia.
  rewrite step_enabled by (by apply bool_decide_eq_true).
  cbn [handle]. munfold.
  set (s0 := set_onlineHooks _ _).
  assert (inv_at us k s0) as I0 by by eapply inv_at_core.
  pose proof (inv_work_remains _ _ _ I0) as Hwork.
  change (taskStatus s0) with (taskStatus s) in Hwork.
  destruct (decide (work_remains s0)) as [Hyes|Hno].
  - rewrite onExit_respawn by done. eexists. split; [done|].
    subst s0. unfold live. states.
    split; [rewrite lookup_insert_ne by lia; apply lookup_delete_eq|].
    split; [set_solver|].
    split.
    + intros _. split; [done|]. split; [case_decide; set_solver|].
      split; [rewrite !forks_app; cbn [forks]; lia|].
      split; [apply lookup_insert_eq|].
      intros now'. rewrite step_enabled.
      * cbn [handle]. munfold. done.
      * apply bool_decide_eq_true. fields.
        repeat split; [set_solver|set_solver|set_solver|done].
    + intros Hnone. by apply Hwork in Hyes.
  - rewrite onExit_quiet by done. eexists. split; [done|].
    subst s0. unfold live. states.
    split; [apply lookup_delete_eq|]. split; [set_solver|].
    split.
    + intros Hsome. by apply Hwork in Hsome.
    + intros _. split; [case_decide; set_solver|].
      rewrite forks_app. cbn [forks]. lia.
Qed.

(** Worker 1 exits while the only job is in progress on it. *)
Lemma exit_respawns_iff_work_remains_witness :
  ∃ s', step 1000 (WorkerExit 1) one_job_running = Ok () s' ∧
        live s' = {[2]} ∪ (live one_job_running ∖ {[1]}).
Proof.
  assert (reachable ["https://example.org/"%string] 1 one_job_running) as Hr
    by (exists [(0%Z, WorkerOnline 1)]; vm_compute; reflexivity).
  assert (1 ∈ live one_job_running) as Hw by (vm_compute; reflexivity).
  destruct (exit_respawns_iff_work_remains _ _ _ 1000%Z 1 Hr Hw)
    as (s' & Hs & _ & _ & Hyes & _).
  destruct Hyes as (_ & Hws & _).
  - exists 0, (Entry 1 InProgress 10 "-"). split; [vm_compute; reflexivity|].
    right. reflexivity.
  - exists s'. split; [exact Hs|exact Hws].
Defined.

(** ** Messages and terminal states *)

(** Nothing in the master listens to worker messages. *)
Lemma message_runs_no_handler now w m s :
  step now (WorkerMessage w m) s = Ok () s.
Proof. unfold step. by destruct (enabled _ _). Qed.

Lemma inv_terminal us k s i e :
  inv_at us k s → taskStatus s !! i = Some e →
  status_of e = Completed ∨ status_of e = TimedOut →
  i < k ∧ i ∉ inProgress s.
Proof.
  intros I He Hst. rewrite (inv_entry _ _ _ _ _ I He) in Hst.
  unfold view in Hst.
  destruct (decide (k ≤ i)); [by destruct Hst|].
  destruct (decide (i ∈ inProgress s)); [by destruct Hst|]. split; [lia|done].
Qed.

(** No handler touches the entry of a job that has reached a terminal
    status. *)
Lemma handle_keeps_terminal us s now ev i e :
  inv us s → taskStatus s !! i = Some e →
  status_of e = Completed ∨ status_of e = TimedOut →
  taskStatus (state_of (handle now ev s)) !! i = Some e.
Proof.
  intros [k I] He Hst. destruct (inv_terminal _ _ _ _ _ I He Hst) as [Hlt Hout].
  destruct ev as [w| |idx w|w|w m|w]; cbn [handle].
  - munfold. set (s0 := set_onlineHooks _ s).
    assert (inv_at us k s0) as I0 by by eapply inv_at_core.
    pose proof (assignTask_keeps us k s0 now w I0) as (_ & _ & _ & K).
    rewrite K by done. exact He.
  - unfold updateConsole. munfold. fields. exact He.
  - munfold. set (s0 := set_timers _ s).
    assert (inv_at us k s0) as I0 by by eapply inv_at_core.
    destruct (decide (idx ∈ inProgress s0)) as [Hin|Hno].
    + rewrite (onTimeout_inv_live _ _ _ _ _ _ I0 Hin).
      set (s1 := marked idx _ s0).
      pose proof (assignTask_keeps us k (checked s1) now w
                    (inv_checked _ _ _ (inv_marked _ _ _ _ I0 Hin)))
        as (_ & _ & _ & K).
      rewrite K by done. destruct (checked_fields s1) as [-> _].
      subst s1 s0. states. rewrite list_lookup_insert_ne; [exact He|].
      intros ->. done.
    + rewrite onTimeout_stale by done. exact He.
  - munfold. set (s0 := set_onlineHooks _ _).
    destruct (decide (work_remains s0)).
    + rewrite onExit_respawn by done. subst s0. states. exact He.
    + rewrite onExit_quiet by done. subst s0. states. exact He.
  - munfold. fields. exact He.
  - munfold. fields. exact He.
Qed.

Lemma run_keeps_terminal us s i e evs :
  inv us s → taskStatus s !! i = Some e →
  status_of e = Completed ∨ status_of e = TimedOut →
  taskStatus (state_of (run evs s)) !! i = Some e.
Proof.
  intros I He Hst.
  apply (run_preserves (λ s', inv us s' ∧ taskStatus s' !! i = Some e));
    [|done].
  intros now ev s' [I' He']. split; [by apply handle_inv|].
  by eapply handle_keeps_terminal.
Qed.

(** C2: once a job is completed or timed out, no later sequence of events
    changes its entry, and neither a message about it, in particular a
    completion message, nor its timer changes any of the three counters. *)
Theorem terminal_status_is_final us n s i e :
  reachable us n s → taskStatus s !! i = Some e →
  status_of e = Completed ∨ status_of e = TimedOut →
  (∀ evs, taskStatus (state_of (run evs s)) !! i = Some e) ∧
  (∀ now w w' f, step now (WorkerMessage w (MsgCompleted i w' f)) s = Ok () s) ∧
  (∀ now w p, step now (WorkerMessage w (MsgProgress i p)) s = Ok () s) ∧
  (∀ now w, let s' := state_of (step now (TimerFired i w) s) in
     completedTasks s' = completedTasks s ∧
     timedOutTasks s' = timedOutTasks s ∧
     totalProcessedTasks s' = totalProcessedTasks s).
Proof.
  intros Hr He Hst. pose proof (reachable_inv _ _ _ Hr) as I.
  split; [intros evs; by eapply run_keeps_terminal|].
  split; [intros; apply message_runs_no_handler|].
  split; [intros; apply message_runs_no_handler|].
  intros now w. destruct I as [k I].
  destruct (inv_terminal _ _ _ _ _ I He Hst) as [_ Hout].
  destruct (step_cases now (TimerFired i w) s) as [-> | ->]; [|done].
  cbn [handle]. munfold. by rewrite onTimeout_stale.
Qed.

(** A completion message for a job that has timed out. *)
Lemma terminal_status_is_final_witness :
  step 300001 (WorkerMessage 1 (MsgCompleted 0 1 "0101-01.pdf")) one_job_timed_out
  = Ok () one_job_timed_out.
Proof.
  assert (reachable ["https://example.org/"%string] 1 one_job_timed_out) as Hr.
  { exists [(0%Z, WorkerOnline 1); (300000%Z, TimerFired 0 1)].
    vm_compute. reflexivity. }
  assert (taskStatus one_job_timed_out !! 0 = Some (Entry 1 TimedOut 0 "-")) as He
    by (vm_compute; reflexivity).
  destruct (terminal_status_is_final _ _ _ 0 _ Hr He) as (_ & H & _).
  - right. reflexivity.
  - apply H.
Defined.

(** C1 fails on the code: a completion message that arrives while the job
    is in progress changes nothing in the master.  The job stays in
    progress at 10 percent, no counter moves, no artifact is recorded, the
    timer stays armed and no task is handed out; the timer later marks
    the job timed out. *)
Theorem completed_message_is_dropped :
  taskStatus one_job_running !! 0 = Some (Entry 1 InProgress 10 "-") ∧
  timers one_job_running = [(0, 1)] ∧
  let s' :=
    state_of (step 5000 (WorkerMessage 1 (MsgCompleted 0 1 "0101-01.pdf"))
                one_job_running) in
  s' = one_job_running ∧
  taskStatus s' !! 0 = Some (Entry 1 InProgress 10 "-") ∧
  completedTasks s' = 0 ∧ totalProcessedTasks s' = 0 ∧ pdfInfo s' = ∅ ∧
  timers s' = [(0, 1)] ∧
  taskStatus (state_of (step 300000 (TimerFired 0 1) s')) !! 0
  = Some (Entry 1 TimedOut 0 "-").
Proof. vm_compute. repeat split; reflexivity. Qed.

(** ** The timer of a worker that has exited *)

(** Whenever the timer of a job in progress fires for a worker that is no
    longer in [cluster.workers] while the queue is not empty, the callback
    throws in [assignTask], at [send]. *)
Lemma stale_worker_throws us n s now idx w :
  reachable us n s → idx ∈ inProgress s → w ∉ workers s → taskQueue s ≠ [] →
  ∃ s', onTimeout now idx w s = Throw TypeError s'.
Proof.
  intros Hr Hin Hw Hq. destruct (reachable_inv _ _ _ Hr) as [k I].
  rewrite (onTimeout_inv_live _ _ _ _ _ _ I Hin).
  set (s1 := marked idx _ s).
  assert (inv_at us k (checked s1)) as I2
    by (by apply inv_checked, inv_marked).
  destruct (checked_fields s1) as (_ & _ & _ & _ & _ & Ews).
  destruct (assignTask_outcome _ _ _ now w I2) as [Hq'|t rest _ _ Hw'|t rest _ _ _].
  - rewrite (inv_queue _ _ _ I2), <-(inv_queue _ _ _ I) in Hq'. done.
  - rewrite Ews in Hw'. done.
  - eauto.
Qed.

(** C10: there is a run in which worker 1 has exited, the queue still holds
    a job, and the timer that captured worker 1 fires: the callback calls
    [assignTask] for worker 1 and [send] throws on the missing handle. *)
Theorem stale_timer_assign_throws :
  run stale_timer_trace (init ["a"; "b"; "c"]%string 1) = Ok () stale_timer_state ∧
  timers stale_timer_state = [(0, 1); (1, 2)] ∧
  0 ∈ inProgress stale_timer_state ∧
  (1 ∉ workers stale_timer_state) ∧
  taskQueue stale_timer_state = [Task "c" 2] ∧
  ∃ s', step 300000 (TimerFired 0 1) stale_timer_state = Throw TypeError s' ∧
        taskQueue s' = [] ∧ timers s' = [(1, 2)].
Proof.
  split; [vm_compute; reflexivity|].
  split; [vm_compute; reflexivity|].
  split; [vm_compute; reflexivity|].
  split; [intros H; vm_compute in H; discriminate|].
  split; [vm_compute; reflexivity|].
  eexists. split; [vm_compute; reflexivity|]. split; reflexivity.
Qed.

(** ** The artifact name *)

Lemma pretty_N_go_length x s : String.length s ≤ String.length (pretty_N_go x s).
Proof.
  revert s. induction (N.lt_wf_0 x) as [x _ IH]; intros s.
  destruct (decide (x = 0)%N) as [->|Hx]; [by rewrite pretty_N_go_0|].
  rewrite pretty_N_go_step by lia.
  etrans; [|apply IH; apply N.div_lt; lia]. cbn. lia.
Qed.

Lemma pretty_one_digit n :
  n < 10 → pretty n = String (pretty_N_char (N.of_nat n)) "".
Proof.
  intros Hn. unfold pretty, pretty_nat, pretty, pretty_N.
  case_decide as H0; [by rewrite H0|].
  rewrite pretty_N_go_step by lia.
  rewrite N.div_small by lia. rewrite pretty_N_go_0.
  by rewrite N.mod_small by lia.
Qed.

Lemma pretty_two_digits n : 10 ≤ n < 100 → pretty n = two_digits n.
Proof.
  intros Hn. unfold pretty, pretty_nat, pretty, pretty_N, two_digits.
  rewrite decide_False by lia.
  rewrite pretty_N_go_step by lia.
  assert (0 < N.of_nat n `div` 10 < 10)%N as Hq.
  { split; [apply N.div_str_pos; lia|apply N.Div0.div_lt_upper_bound; lia]. }
  rewrite pretty_N_go_step by lia.
  rewrite (N.div_small (_ `div` 10)) by lia. rewrite pretty_N_go_0.
  by rewrite (N.mod_small (_ `div` 10)) by lia.
Qed.

Lemma pretty_long n : 10 ≤ n → 2 ≤ String.length (pretty n).
Proof.
  intros Hn. unfold pretty, pretty_nat, pretty, pretty_N.
  rewrite decide_False by lia.
  rewrite pretty_N_go_step by lia.
  rewrite pretty_N_go_step by (apply N.div_str_pos; lia).
  etrans; [|apply pretty_N_go_length]. done.
Qed.

Lemma padStart_small n : n < 100 → padStart 2 "0" (pretty n) = two_digits n.
Proof.
  intros Hn. destruct (decide (n < 10)) as [Hs|Hl].
  - rewrite pretty_one_digit by done. unfold two_digits.
    rewrite N.div_small, N.mod_small by lia. reflexivity.
  - rewrite pretty_two_digits by lia. reflexivity.
Qed.

Lemma padStart_large n : 10 ≤ n → padStart 2 "0" (pretty n) = pretty n.
Proof.
  intros Hn. unfold padStart. by rewrite decide_True by by apply pretty_long.
Qed.

(** C9: for every date and job index the name is a function of the two,
    made of the month ([getMonth() + 1]) in two digits, the day in two
    digits, a hyphen, the 1-based index padded with a zero to two digits
    (the plain numeral from 100 on), and [.pdf]. *)
Theorem fileName_is_MMDD_NN_pdf d idx :
  valid_date d →
  fileName d idx =
    two_digits (getMonth d + 1) +:+ two_digits (getDate d) +:+ "-"
    +:+ padStart 2 "0" (pretty (idx + 1)) +:+ ".pdf" ∧
  (idx + 1 < 100 → padStart 2 "0" (pretty (idx + 1)) = two_digits (idx + 1)) ∧
  (idx + 1 < 100 → String.length (fileName d idx) = 11) ∧
  (10 ≤ idx + 1 → padStart 2 "0" (pretty (idx + 1)) = pretty (idx + 1)).
Proof.
  intros [Hm Hd]. unfold fileName.
  rewrite !padStart_small by lia.
  split; [done|]. split; [apply padStart_small|]. split; [|apply padStart_large].
  intros Hi. rewrite padStart_small by done. reflexivity.
Qed.

(** Job 7 (index 6) on the second of November. *)
Lemma fileName_is_MMDD_NN_pdf_witness :
  fileName (Date 10 2) 6 = "1102-07.pdf"%string.
Proof.
  assert (valid_date (Date 10 2)) as Hv by (unfold valid_date; cbn; lia).
  destruct (fileName_is_MMDD_NN_pdf (Date 10 2) 6 Hv) as [H _].
  rewrite H. vm_compute. reflexivity.
Defined.

(** * Further properties of the master *)

(** ** Runs and enabled events *)

(** For properties of the states of a master that is still running. *)
Lemma run_ok_preserves (P : master → Prop) :
  (∀ now e s s', P s → enabled e s = true → handle now e s = Ok () s' → P s') →
  ∀ evs s s', P s → run evs s = Ok () s' → P s'.
Proof.
  intros Hstep evs. induction evs as [|[now e] evs IH]; intros s s' HP Hrun.
  - cbn in Hrun. by injection Hrun as <-.
  - cbn [run] in Hrun. revert Hrun. munfold.
    destruct (step now e s) as [[] s1|x s1] eqn:Hs; [|done].
    intros Hrun. apply (IH s1); [|done].
    unfold step in Hs. destruct (enabled e s) eqn:He.
    + by eapply Hstep.
    + by injection Hs as <-.
Qed.

Lemma reachable_step us n s now e s' :
  reachable us n s → step now e s = Ok () s' → reachable us n s'.
Proof.
  intros [evs Hr] Hs. exists (evs ++ [(now, e)]).
  revert Hr. generalize (init us n). induction evs as [|[t x] evs IH]; intros s0.
  - cbn. intros [= ->]. munfold. by rewrite Hs.
  - cbn [app run]. munfold. destruct (step t x s0) as [[] s1|]; [apply IH|done].
Qed.

Lemma sends_app l1 l2 : sends (l1 ++ l2) = sends l1 ++ sends l2.
Proof. induction l1 as [|[] l1 IH]; cbn; by rewrite ?IH. Qed.

Lemma screens_app l1 l2 : screens (l1 ++ l2) = screens l1 ++ screens l2.
Proof. induction l1 as [|[] l1 IH]; cbn; by rewrite ?IH. Qed.

Lemma sends_kills ids : sends (Kill <$> ids) = [].
Proof. by induction ids. Qed.

Lemma screens_kills ids : screens (Kill <$> ids) = [].
Proof. by induction ids. Qed.

(** What [assignTask] leaves alone in every outcome. *)
Lemma assignTask_frame us k s now w :
  inv_at us k s →
  let s' := state_of (assignTask now w s) in
  workers s' = workers s ∧ nextId s' = nextId s ∧ refresh s' = refresh s ∧
  forks (output s') = forks (output s) ∧
  shutdowns (output s') = shutdowns (output s) ∧
  screens (output s') = screens (output s).
Proof.
  intros I.
  destruct (assignTask_outcome _ _ _ now w I) as [|t rest Hq Hi|t rest Hq Hi];
    states; try done.
  rewrite forks_app, shutdowns_app, screens_app. cbn [forks shutdowns screens].
  rewrite !Nat.add_0_r, app_nil_r. done.
Qed.

Lemma checked_marked_frame idx e s :
  let s' := checked (marked idx e s) in
  workers s' = workers s ∧ nextId s' = nextId s ∧
  forks (output s') = forks (output s).
Proof.
  unfold checked. case_decide; states; rewrite ?forks_app, ?forks_shutdown_effects;
    cbn [forks]; repeat split; try done; lia.
Qed.

Lemma init_workers us n : workers (init us n) = set_seq 1 n.
Proof.
  rewrite init_eq. destruct (iter_forked n (fresh us)) as (_ & _ & -> & _).
  cbn [fresh workers nextId]. by rewrite (right_id_L ∅ (∪)).
Qed.

(** ** The pool never grows *)

(** The keys of [cluster.workers] are no measure of the pool: after the
    exit of worker 1 on a one-processor host the key of worker 1 is still
    there, next to that of its replacement, until worker 1 disconnects. *)
Lemma keys_can_exceed_numCPUs :
  size (workers (state_of (run [(0%Z, WorkerOnline 1); (1000%Z, WorkerExit 1)]
                             (init ["a"; "b"]%string 1)))) = 2 ∧
  size (workers (state_of (run [(0%Z, WorkerOnline 1); (1000%Z, WorkerExit 1);
                                (1001%Z, WorkerDisconnect 1)]
                             (init ["a"; "b"]%string 1)))) = 1.
Proof. split; vm_compute; reflexivity. Qed.

Lemma handle_live us n s now e :
  inv us s → aux s → flags_known s → enabled e s = true →
  size (live s) ≤ n → size (live (state_of (handle now e s))) ≤ n.
Proof.
  intros I [F _] K Hen Hsz. unfold live in *.
  destruct e as [w| |idx w|w|w m|w]; cbn [handle].
  - munfold. set (s0 := set_onlineHooks _ s). destruct I as [k I].
    assert (inv_at us k s0) as I0 by by eapply inv_at_core.
    destruct (assignTask_flags _ _ _ now w I0) as (-> & _ & _ & ->). exact Hsz.
  - exact Hsz.
  - munfold. set (s0 := set_timers _ s). destruct I as [k I].
    assert (inv_at us k s0) as I0 by by eapply inv_at_core.
    destruct (decide (idx ∈ inProgress s0)) as [Hin|Hno].
    + rewrite (onTimeout_inv_live _ _ _ _ _ _ I0 Hin).
      set (s1 := marked idx _ s0).
      destruct (assignTask_flags us k (checked s1) now w
                  (inv_checked _ _ _ (inv_marked _ _ _ _ I0 Hin)))
        as (-> & _ & _ & ->).
      subst s1.
      destruct (checked_marked_flags idx (view k (inProgress s0) idx) s0)
        as (-> & _ & _ & ->). exact Hsz.
    + rewrite onTimeout_stale by done. exact Hsz.
  - apply bool_decide_eq_true in Hen as [Hw Hne].
    pose proof (F _ Hw) as Hlt.
    assert (nextId s ∉ exited s) as Hfe.
    { intros Hx. assert (nextId s < nextId s); [apply K; set_solver|lia]. }
    assert (size (workers s ∖ exited s ∖ {[w]}) = size (workers s ∖ exited s) - 1)
      as Hdel.
    { rewrite size_difference by set_solver. by rewrite size_singleton. }
    munfold. set (s0 := set_onlineHooks _ _).
    assert (workers s0 ∖ exited s0 = workers s ∖ exited s ∖ {[w]}) as Hlive.
    { subst s0. fields. case_decide; set_solver. }
    destruct (decide (work_remains s0)).
    + rewrite onExit_respawn by done. states.
      assert (({[nextId s0]} ∪ workers s0) ∖ exited s0
              = {[nextId s]} ∪ (workers s ∖ exited s ∖ {[w]})) as ->.
      { rewrite <-Hlive. subst s0. fields. set_solver by lia. }
      rewrite size_union.
      * rewrite size_singleton, Hdel.
        assert (0 < size (workers s ∖ exited s)); [|lia].
        apply (size_pos_of_elem _ w). set_solver.
      * apply disjoint_singleton_l. intros [[Hn _]%elem_of_difference _]%elem_of_difference.
        apply F in Hn. lia.
    + rewrite onExit_quiet by done. states. rewrite Hlive, Hdel. lia.
  - exact Hsz.
  - munfold. fields.
    assert ((if decide (w ∈ exited s) then workers s ∖ {[w]} else workers s)
            ∖ exited s = workers s ∖ exited s) as ->; [|done].
    case_decide; set_solver.
Qed.

(** X1: in every run the number of workers that have not exited never
    exceeds [numCPUs]: the master forks only at startup and, one for one,
    on the exit of a worker. *)
Theorem live_workers_never_exceed_numCPUs us n evs :
  size (live (state_of (run evs (init us n)))) ≤ n.
Proof.
  refine (proj2 (run_preserves_enabled
    (λ s, ((inv us s ∧ aux s) ∧ flags_known s) ∧ size (live s) ≤ n)
    _ evs (init us n) _)).
  - intros now e s [[[I A] K] Hsz] Hen.
    split; [split; [split; [by apply handle_inv|by eapply handle_aux]|
                    by eapply handle_flags]|].
    by eapply handle_live.
  - split; [split; [split; [apply init_inv|apply init_aux]|]|].
    + apply (run_flags us n []).
    + unfold live. rewrite init_workers.
      assert (exited (init us n) = ∅) as ->.
      { rewrite init_eq. induction n as [|n IH]; [done|].
        rewrite Nat.iter_succ. exact IH. }
      rewrite difference_empty_L, size_set_seq. done.
Qed.

(** ** The initial state, once more *)

Lemma init_inv_at us n : inv_at us 0 (init us n).
Proof.
  rewrite init_eq. induction n as [|n IH].
  - apply inv_fresh.
  - rewrite Nat.iter_succ. by apply inv_forked.
Qed.

Lemma init_output us n :
  sends (output (init us n)) = [] ∧ shutdowns (output (init us n)) = 0 ∧
  screens (output (init us n)) = [] ∧ forks (output (init us n)) = n ∧
  refresh (init us n) = true.
Proof.
  rewrite init_eq. induction n as [|n (IH1 & IH2 & IH3 & IH4 & IH5)]; [done|].
  rewrite Nat.iter_succ. set (s := Nat.iter n forked (fresh us)) in *.
  states. rewrite sends_app, shutdowns_app, screens_app, forks_app, IH1, IH2, IH3, IH4.
  cbn [sends shutdowns screens forks app]. repeat split; try done. lia.
Qed.

(** The successful outcomes of [assignTask] in a state of the invariant. *)
Lemma assignTask_Ok_inv us k s now w s' :
  inv_at us k s → assignTask now w s = Ok () s' →
  (taskQueue s = [] ∧ s' = s) ∨
  (∃ t rest, taskQueue s = t :: rest ∧ index t = k ∧ w ∈ workers s ∧
     s' = armed w t (started now t rest (view k (inProgress s) k) s)).
Proof.
  intros I. destruct (assignTask_outcome _ _ _ now w I) as [Hq|t rest Hq Hi Hw|];
    [| |done].
  - intros [= <-]. by left.
  - intros [= <-]. right. by exists t, rest.
Qed.

(** ** Jobs leave the queue in input order *)

Lemma sends_shutdown_effects s : sends (shutdown_effects s) = [].
Proof. unfold shutdown_effects. by rewrite sends_app, sends_kills. Qed.

Lemma checked_marked_sends idx e s :
  sends (output (checked (marked idx e s))) = sends (output s) ∧
  taskQueue (checked (marked idx e s)) = taskQueue s.
Proof.
  unfold checked. case_decide; states;
    rewrite ?sends_app, ?sends_shutdown_effects; cbn [sends];
    by rewrite ?app_nil_r.
Qed.

Lemma assignTask_sends us k s now w s' :
  inv_at us k s → assignTask now w s = Ok () s' →
  sends (output s') ++ taskQueue s' = sends (output s) ++ taskQueue s.
Proof.
  intros I [[Hq ->]|(t & rest & Hq & _ & _ & ->)]%(assignTask_Ok_inv _ _ _ _ _ _ I);
    [done|].
  states. rewrite sends_app, Hq. cbn [sends]. rewrite <-app_assoc.
  by destruct t.
Qed.

(** The handlers, event by event. *)
Lemma handle_online_eq now w s :
  handle now (WorkerOnline w) s
  = assignTask now w (set_onlineHooks (onlineHooks s ∖ {[w]}) s).
Proof. reflexivity. Qed.

Lemma handle_tick_eq now s : handle now Tick s = updateConsole s.
Proof. reflexivity. Qed.

Lemma handle_timer_eq now idx w s :
  handle now (TimerFired idx w) s
  = onTimeout now idx w (set_timers (remove_first (idx, w) (timers s)) s).
Proof. reflexivity. Qed.

Lemma handle_exit_eq now w s :
  handle now (WorkerExit w) s
  = onExit w (set_onlineHooks (onlineHooks s ∖ {[w]})
                (set_exited ({[w]} ∪ exited s)
                   (set_workers
                      (if decide (w ∈ disconnected s)
                       then workers s ∖ {[w]} else workers s) s))).
Proof. reflexivity. Qed.

Lemma handle_message_eq now w m s : handle now (WorkerMessage w m) s = Ok () s.
Proof. reflexivity. Qed.

Lemma handle_disconnect_eq now w s :
  handle now (WorkerDisconnect w) s
  = Ok () (set_disconnected ({[w]} ∪ disconnected s)
             (set_workers
                (if decide (w ∈ exited s)
                 then workers s ∖ {[w]} else workers s) s)).
Proof. reflexivity. Qed.

Lemma handle_sends us s now e s' :
  inv us s → handle now e s = Ok () s' →
  sends (output s') ++ taskQueue s' = sends (output s) ++ taskQueue s.
Proof.
  intros [k I] Hh.
  destruct e as [w| |idx w|w|w m|w].
  - rewrite handle_online_eq in Hh.
    set (s0 := set_onlineHooks _ s) in Hh.
    assert (inv_at us k s0) as I0 by by eapply inv_at_core.
    by rewrite (assignTask_sends _ _ _ _ _ _ I0 Hh).
  - rewrite handle_tick_eq in Hh. revert Hh. unfold updateConsole. munfold.
    intros [= <-]. fields.
    rewrite sends_app. cbn [sends]. by rewrite app_nil_r.
  - rewrite handle_timer_eq in Hh. set (s0 := set_timers _ s) in Hh.
    assert (inv_at us k s0) as I0 by by eapply inv_at_core.
    destruct (decide (idx ∈ inProgress s0)) as [Hin|Hno].
    + rewrite (onTimeout_inv_live _ _ _ _ _ _ I0 Hin) in Hh.
      rewrite (assignTask_sends _ _ _ _ _ _
                 (inv_checked _ _ _ (inv_marked _ _ _ _ I0 Hin)) Hh).
      destruct (checked_marked_sends idx (view k (inProgress s0) idx) s0)
        as [-> ->]. done.
    + rewrite onTimeout_stale in Hh by done. by injection Hh as <-.
  - rewrite handle_exit_eq in Hh. set (s0 := set_onlineHooks _ _) in Hh.
    destruct (decide (work_remains s0)).
    + rewrite onExit_respawn in Hh by done. injection Hh as <-.
      subst s0. states.
      rewrite !sends_app. cbn [sends]. by rewrite !app_nil_r.
    + rewrite onExit_quiet in Hh by done. injection Hh as <-.
      subst s0. states.
      rewrite !sends_app. cbn [sends]. by rewrite !app_nil_r.
  - rewrite handle_message_eq in Hh. by injection Hh as <-.
  - rewrite handle_disconnect_eq in Hh. injection Hh as <-. fields. reflexivity.
Qed.

(** X2: in every state of a running master the jobs sent so far, in the
    order they were sent, followed by the jobs still queued, are the input
    in its order: jobs are dispatched first in, first out, each at most
    once. *)
Theorem jobs_sent_in_input_order us n s :
  reachable us n s → sends (output s) ++ taskQueue s = initial_queue us.
Proof.
  intros [evs Hr].
  refine (proj2 (run_ok_preserves
    (λ x, inv us x ∧ sends (output x) ++ taskQueue x = initial_queue us)
    _ evs (init us n) s _ Hr)).
  - intros now e s1 s2 [I Hs] _ Hh. split.
    + pose proof (handle_inv us s1 now e I) as I'. by rewrite Hh in I'.
    + by rewrite (handle_sends _ _ _ _ _ I Hh).
  - split; [apply init_inv|].
    destruct (init_output us n) as [-> _].
    apply (inv_queue _ _ _ (init_inv_at us n)).
Qed.

(** Two jobs, one worker: the first job is out, the second is queued. *)
Lemma jobs_sent_in_input_order_witness :
  sends (output (state_of (run [(0%Z, WorkerOnline 1)] (init ["a"; "b"]%string 1))))
  ++ taskQueue (state_of (run [(0%Z, WorkerOnline 1)] (init ["a"; "b"]%string 1)))
  = [Task "a" 0; Task "b" 1].
Proof.
  apply (jobs_sent_in_input_order ["a"; "b"]%string 1).
  exists [(0%Z, WorkerOnline 1)]. vm_compute. reflexivity.
Defined.

(** ** A job in progress has its timer *)

Lemma remove_first_other (x y : nat * nat) l :
  x ≠ y → y ∈ l → y ∈ remove_first x l.
Proof.
  intros Hne. induction l as [|z l IH]; [done|]. cbn.
  intros [->|Hin]%elem_of_cons.
  - rewrite decide_False by done. apply elem_of_cons. by left.
  - case_decide; [done|]. apply elem_of_cons. right. by apply IH.
Qed.

Lemma assignTask_timers us k s now w s' :
  inv_at us k s → each_has_timer s → assignTask now w s = Ok () s' →
  each_has_timer s'.
Proof.
  intros I H0
    [[Hq ->]|(t & rest & Hq & _ & _ & ->)]%(assignTask_Ok_inv _ _ _ _ _ _ I);
    [done|].
  intros i. states. intros [->%elem_of_singleton|Hi]%elem_of_union.
  - exists w. apply elem_of_app. right. by apply list_elem_of_singleton.
  - destruct (H0 i Hi) as [w' Hw']. exists w'. apply elem_of_app. by left.
Qed.

Lemma handle_timers us s now e s' :
  inv us s → each_has_timer s → handle now e s = Ok () s' → each_has_timer s'.
Proof.
  intros [k I] HT Hh.
  destruct e as [w| |idx w|w|w m|w].
  - rewrite handle_online_eq in Hh. set (s0 := set_onlineHooks _ s) in Hh.
    eapply (assignTask_timers us k s0); [by eapply inv_at_core|exact HT|done].
  - rewrite handle_tick_eq in Hh. revert Hh. unfold updateConsole. munfold.
    intros [= <-]. intros i. fields. apply HT.
  - rewrite handle_timer_eq in Hh. set (s0 := set_timers _ s) in Hh.
    assert (inv_at us k s0) as I0 by by eapply inv_at_core.
    destruct (decide (idx ∈ inProgress s0)) as [Hin|Hno].
    + rewrite (onTimeout_inv_live _ _ _ _ _ _ I0 Hin) in Hh.
      eapply assignTask_timers; [|..|exact Hh].
      { by apply inv_checked, inv_marked. }
      intros i.
      destruct (checked_fields (marked idx (view k (inProgress s0) idx) s0))
        as (_ & _ & _ & _ & -> & _).
      assert (timers (checked (marked idx (view k (inProgress s0) idx) s0))
              = timers s0) as -> by (unfold checked; by case_decide).
      subst s0. states. intros [Hi Hne]%elem_of_difference.
      destruct (HT i Hi) as [w' Hw']. exists w'.
      apply remove_first_other; [|done]. intros [= -> _]. set_solver.
    + rewrite onTimeout_stale in Hh by done. injection Hh as <-.
      intros i Hi. subst s0. fields. destruct (HT i Hi) as [w' Hw'].
      exists w'. apply remove_first_other; [|done]. by intros [= -> _].
  - rewrite handle_exit_eq in Hh. set (s0 := set_onlineHooks _ _) in Hh.
    destruct (decide (work_remains s0)).
    + rewrite onExit_respawn in Hh by done. injection Hh as <-.
      intros i. subst s0. states. apply HT.
    + rewrite onExit_quiet in Hh by done. injection Hh as <-.
      intros i. subst s0. states. apply HT.
  - rewrite handle_message_eq in Hh. by injection Hh as <-.
  - rewrite handle_disconnect_eq in Hh. injection Hh as <-.
    intros i. fields. apply HT.
Qed.

(** X3: in every state of a running master, each job in progress has an
    armed timer, so none can stay in progress for ever. *)
Theorem in_progress_job_has_timer us n s i :
  reachable us n s → i ∈ inProgress s → ∃ w, (i, w) ∈ timers s.
Proof.
  intros [evs Hr]. revert i.
  refine (proj2 (run_ok_preserves (λ x, inv us x ∧ each_has_timer x)
    _ evs (init us n) s _ Hr)).
  - intros now e s1 s2 [I HT] _ Hh. split.
    + pose proof (handle_inv us s1 now e I) as I'. by rewrite Hh in I'.
    + by eapply handle_timers.
  - split; [apply init_inv|]. intros i Hi.
    apply (inv_inProgress _ _ _ (init_inv_at us n)) in Hi. lia.
Qed.

(** The job of the one-job run, in progress on worker 1. *)
Lemma in_progress_job_has_timer_witness : ∃ w, (0, w) ∈ timers one_job_running.
Proof.
  apply (in_progress_job_has_timer ["https://example.org/"%string] 1).
  - exists [(0%Z, WorkerOnline 1)]. vm_compute. reflexivity.
  - vm_compute. reflexivity.
Defined.

(** ** Every job is accounted for *)

(** X4: at the end of every run, however it ends, each job is in exactly
    one place: still queued, in progress, or counted as timed out; the
    total-processed counter is the timed-out counter and never exceeds the
    number of jobs. *)
Theorem jobs_are_conserved us n evs :
  let s := state_of (run evs (init us n)) in
  length (taskQueue s) + size (inProgress s) + timedOutTasks s = length us ∧
  totalProcessedTasks s = timedOutTasks s ∧
  totalProcessedTasks s ≤ length us.
Proof.
  destruct (run_inv us n evs) as [k I]. cbv zeta.
  rewrite (inv_queue_length _ _ _ I), (inv_total _ _ _ I).
  pose proof (inv_k _ _ _ I). pose proof (inv_count _ _ _ I). lia.
Qed.

(** X5: in no run does the master ever mark a job completed, count one as
    completed, record an artifact or compute a duration: every entry keeps
    its id and the duration ['-'], with status and progress Pending 0,
    In Progress 10 or Timed Out 0. *)
Theorem master_never_completes_a_job us n evs i e :
  taskStatus (state_of (run evs (init us n))) !! i = Some e →
  completedTasks (state_of (run evs (init us n))) = 0 ∧
  pdfInfo (state_of (run evs (init us n))) = ∅ ∧
  id e = i + 1 ∧ duration e = "-"%string ∧
  ((status_of e = Pending ∧ progress e = 0) ∨
   (status_of e = InProgress ∧ progress e = 10) ∨
   (status_of e = TimedOut ∧ progress e = 0)).
Proof.
  intros He. destruct (run_inv us n evs) as [k I].
  split; [apply (inv_completed _ _ _ I)|]. split; [apply (inv_pdfInfo _ _ _ I)|].
  rewrite (inv_entry _ _ _ _ _ I He). unfold view.
  repeat case_decide; cbn; naive_solver.
Qed.

(** The job of the one-job run after its timer has fired. *)
Lemma master_never_completes_a_job_witness :
  completedTasks one_job_timed_out = 0 ∧ pdfInfo one_job_timed_out = ∅.
Proof.
  destruct (master_never_completes_a_job ["https://example.org/"%string] 1
              [(0%Z, WorkerOnline 1); (300000%Z, TimerFired 0 1)]
              0 (Entry 1 TimedOut 0 "-")) as (H1 & H2 & _).
  - vm_compute. reflexivity.
  - split; [exact H1|exact H2].
Defined.

(** ** What [updateConsole] draws *)

Lemma inv_final_screen us s :
  inv us s → consistent_screen (length us) (final_screen s).
Proof.
  intros [k I]. unfold consistent_screen, final_screen. cbn.
  rewrite (inv_urls _ _ _ I), (inv_length _ _ _ I), (inv_completed _ _ _ I),
    (inv_total _ _ _ I).
  pose proof (inv_k _ _ _ I). pose proof (inv_count _ _ _ I).
  repeat split; lia.
Qed.

Lemma screens_shutdown_effects s : screens (shutdown_effects s) = [final_screen s].
Proof.
  unfold shutdown_effects. rewrite screens_app, screens_kills. done.
Qed.

Lemma handle_screens us s now e :
  inv us s →
  Forall (consistent_screen (length us)) (screens (output s)) →
  Forall (consistent_screen (length us))
    (screens (output (state_of (handle now e s)))).
Proof.
  intros I HF. destruct e as [w| |idx w|w|w m|w]; cbn [handle].
  - munfold. set (s0 := set_onlineHooks _ s). destruct I as [k I].
    assert (inv_at us k s0) as I0 by by eapply inv_at_core.
    destruct (assignTask_frame _ _ _ now w I0) as (_ & _ & _ & _ & _ & ->).
    done.
  - unfold updateConsole. munfold. fields. rewrite screens_app.
    apply Forall_app. split; [done|]. cbn [screens].
    apply Forall_singleton. by apply inv_final_screen.
  - munfold. set (s0 := set_timers _ s). destruct I as [k I].
    assert (inv_at us k s0) as I0 by by eapply inv_at_core.
    destruct (decide (idx ∈ inProgress s0)) as [Hin|Hno].
    + rewrite (onTimeout_inv_live _ _ _ _ _ _ I0 Hin).
      pose proof (inv_marked _ _ _ _ I0 Hin) as I1.
      set (s1 := marked idx _ s0) in *.
      destruct (assignTask_frame us k (checked s1) now w (inv_checked _ _ _ I1))
        as (_ & _ & _ & _ & _ & ->).
      assert (screens (output s1) = screens (output s)) as Hs1.
      { subst s1 s0. states. rewrite screens_app. cbn [screens].
        by rewrite app_nil_r. }
      unfold checked. case_decide.
      * states. rewrite screens_app, screens_shutdown_effects, Hs1.
        apply Forall_app. split; [done|]. apply Forall_singleton.
        apply inv_final_screen. by exists k.
      * by rewrite Hs1.
    + by rewrite onTimeout_stale.
  - munfold. set (s0 := set_onlineHooks _ _).
    destruct (decide (work_remains s0)).
    + rewrite onExit_respawn by done. subst s0. states.
      rewrite !screens_app. cbn [screens]. by rewrite !app_nil_r.
    + rewrite onExit_quiet by done. subst s0. states.
      rewrite !screens_app. cbn [screens]. by rewrite !app_nil_r.
  - done.
  - munfold. fields. done.
Qed.

(** X6: every screen [updateConsole] draws in a run adds up: it lists one
    line for each job, and Completed + Timed Out + Remaining is the total
    with Remaining never negative. *)
Theorem every_screen_adds_up us n evs :
  Forall (consistent_screen (length us))
    (screens (output (state_of (run evs (init us n))))).
Proof.
  refine (proj2 (run_preserves
    (λ s, inv us s ∧ Forall (consistent_screen (length us)) (screens (output s)))
    _ evs (init us n) _)).
  - intros now e s [I HF]. split; [by apply handle_inv|by apply handle_screens].
  - split; [apply init_inv|].
    destruct (init_output us n) as (_ & _ & -> & _). constructor.
Qed.

(** ** After the batch *)

Lemma settled_refl s : settled s s.
Proof. by repeat split. Qed.

Lemma settled_trans s1 s2 s3 : settled s1 s2 → settled s2 s3 → settled s1 s3.
Proof.
  intros (A1 & A2 & A3 & A4 & A5 & A6 & A7 & A8 & A9 & A10 & A11)
         (B1 & B2 & B3 & B4 & B5 & B6 & B7 & B8 & B9 & B10 & B11).
  repeat split; try congruence. set_solver.
Qed.

(** Once every job is processed, no handler throws and none does more
    than draw the screen, log an exit or forget a worker. *)
Lemma handle_settled us s now e :
  inv us s → totalProcessedTasks s = length us →
  ∃ s', handle now e s = Ok () s' ∧ settled s s'.
Proof.
  intros [k I] Ht. destruct (inv_drained _ _ _ I Ht) as (Hq & Hip & _).
  destruct e as [w| |idx w|w|w m|w]; cbn [handle].
  - munfold. rewrite assignTask_empty by done. eexists. split; [done|].
    by repeat split.
  - unfold updateConsole. munfold. eexists. split; [done|].
    unfold settled. fields.
    rewrite sends_app, forks_app, shutdowns_app. cbn [sends forks shutdowns].
    rewrite app_nil_r, !Nat.add_0_r. by repeat split.
  - munfold. rewrite onTimeout_stale by (fields; rewrite Hip; set_solver).
    eexists. split; [done|]. by repeat split.
  - munfold. rewrite onExit_quiet.
    + eexists. split; [done|]. unfold settled. states.
      rewrite sends_app, forks_app, shutdowns_app. cbn [sends forks shutdowns].
      rewrite app_nil_r, !Nat.add_0_r. repeat split; try done.
      case_decide; set_solver.
    + unfold work_remains. fields. rewrite Hq, Hip, size_empty. cbn. lia.
  - munfold. eexists. split; [done|]. apply settled_refl.
  - munfold. eexists. split; [done|]. unfold settled. fields.
    repeat split; try done. case_decide; set_solver.
Qed.

Lemma run_settled us evs s :
  inv us s → totalProcessedTasks s = length us →
  ∃ s', run evs s = Ok () s' ∧ settled s s'.
Proof.
  revert s. induction evs as [|[now e] evs IH]; intros s I Ht.
  - exists s. split; [done|apply settled_refl].
  - cbn [run]. munfold. unfold step. destruct (enabled e s).
    + destruct (handle_settled _ _ now e I Ht) as (s1 & Hh & Hs1).
      rewrite Hh. destruct (IH s1) as (s2 & Hr & Hs2).
      * pose proof (handle_inv us s now e I) as I1. by rewrite Hh in I1.
      * destruct Hs1 as (_ & _ & _ & _ & _ & -> & _). done.
      * exists s2. split; [done|]. by eapply settled_trans.
    + by apply IH.
Qed.

(** X7: once the total-processed counter has reached the number of jobs,
    no later event makes the master throw, send a job, fork a worker or
    run the shutdown sequence again, and the task table and the counters
    stay as they are: the exits that follow [kill()] spawn nothing. *)
Theorem nothing_happens_after_the_batch us n s evs :
  reachable us n s → totalProcessedTasks s = length us →
  ∃ s', run evs s = Ok () s' ∧ settled s s'.
Proof. intros Hr Ht. apply (run_settled us); [by eapply reachable_inv|done]. Qed.

(** The one-job run after its timer has fired, then the exit of the
    killed worker. *)
Lemma nothing_happens_after_the_batch_witness :
  ∃ s', run [(300001%Z, WorkerExit 1)] one_job_timed_out = Ok () s' ∧
        settled one_job_timed_out s'.
Proof.
  apply (nothing_happens_after_the_batch ["https://example.org/"%string] 1).
  - exists [(0%Z, WorkerOnline 1); (300000%Z, TimerFired 0 1)].
    vm_compute. reflexivity.
  - vm_compute. reflexivity.
Defined.

(** X8: with no job at all the master forks [numCPUs] workers and then
    waits for ever: whatever happens it never sends a job, never runs the
    shutdown sequence, never clears the refresh interval and never forks
    again. *)
Theorem empty_input_never_shuts_down n evs :
  ∃ s, run evs (init [] n) = Ok () s ∧
       sends (output s) = [] ∧ shutdowns (output s) = 0 ∧
       refresh s = true ∧ forks (output s) = n.
Proof.
  destruct (run_settled [] evs (init [] n)) as (s & Hr & Hs).
  - apply init_inv.
  - destruct (init_inv_at [] n) as [_ _ _ _ _ _ Hc _ Ht _].
    rewrite Ht. cbn [length]. lia.
  - exists s. split; [done|].
    destruct Hs as (_ & _ & _ & _ & _ & _ & -> & _ & -> & -> & ->).
    by destruct (init_output [] n) as (-> & -> & _ & -> & ->).
Qed.

(** * Reading the job list *)

Lemma cellName_inj r r' : cellName r = cellName r' → r = r'.
Proof. unfold cellName. intros [= H]. by apply (inj pretty). Qed.

Section readUrls.
Context {number : Type} (truthy_number : number → bool).
Implicit Types (sheet : gmap string (cell number)) (urls : list (value number)).

Lemma loopTest_delete sheet r row :
  r ≠ row →
  loopTest truthy_number (delete (cellName r) sheet) row
  = loopTest truthy_number sheet row.
Proof.
  intros Hne. unfold loopTest. rewrite lookup_delete_ne; [done|].
  intros ?%cellName_inj. done.
Qed.

Lemma loopTest_insert sheet r c row :
  r ≠ row →
  loopTest truthy_number (<[cellName r := c]> sheet) row
  = loopTest truthy_number sheet row.
Proof.
  intros Hne. unfold loopTest. rewrite lookup_insert_ne; [done|].
  intros ?%cellName_inj. done.
Qed.

Lemma loopTest_Some sheet row x :
  loopTest truthy_number sheet row = Some x → is_Some (sheet !! cellName row).
Proof. unfold loopTest. destruct (sheet !! cellName row); [eauto|done]. Qed.

(** The loop never looks below the current row. *)
Lemma readRows_delete fuel sheet r row urls :
  r < row →
  readRows truthy_number fuel (delete (cellName r) sheet) row urls
  = readRows truthy_number fuel sheet row urls.
Proof.
  revert row urls. induction fuel as [|fuel IH]; intros row urls Hlt; [done|].
  cbn [readRows]. rewrite loopTest_delete by lia.
  destruct (loopTest _ sheet row); [|done]. apply IH. lia.
Qed.

(** The loop ends: each turn uses up one cell of the sheet. *)
Lemma readRows_total fuel sheet row urls :
  size sheet < fuel → is_Some (readRows truthy_number fuel sheet row urls).
Proof.
  revert sheet row urls. induction fuel as [|fuel IH]; intros sheet row urls Hsz;
    [lia|].
  cbn [readRows]. destruct (loopTest _ sheet row) as [x|] eqn:Ht; [|eauto].
  rewrite <-(readRows_delete fuel sheet row (row + 1)) by lia.
  apply IH. pose proof (loopTest_Some _ _ _ Ht) as Hc.
  rewrite map_size_delete_Some by done.
  assert (size sheet ≠ 0); [|lia].
  intros ->%map_size_empty_iff. destruct Hc as [c Hc].
  by rewrite lookup_empty in Hc.
Qed.

(** What the loop has pushed when it ends. *)
Lemma readRows_spec fuel sheet row urls result :
  readRows truthy_number fuel sheet row urls = Some result →
  ∃ new, result = urls ++ new ∧
    (∀ j x, new !! j = Some x → loopTest truthy_number sheet (row + j) = Some x) ∧
    loopTest truthy_number sheet (row + length new) = None.
Proof.
  revert row urls. induction fuel as [|fuel IH]; intros row urls; [done|].
  cbn [readRows]. destruct (loopTest _ sheet row) as [x|] eqn:Ht.
  - intros (new & -> & Hnew & Hend)%IH. exists (x :: new).
    split; [by rewrite <-app_assoc|]. split.
    + intros [|j] y; cbn.
      * intros [= <-]. by rewrite Nat.add_0_r.
      * intros Hj. replace (row + S j) with (row + 1 + j) by lia. by apply Hnew.
    + cbn [length]. by replace (row + S (length new)) with (row + 1 + length new) by lia.
  - intros [= <-]. exists []. rewrite app_nil_r, Nat.add_0_r. by repeat split.
Qed.

(** The rows read are determined by the sheet: the longest run of cells
    from row 1 that pass the loop test. *)
Lemma first_rows_unique sheet urls1 urls2 :
  (∀ j x, urls1 !! j = Some x → loopTest truthy_number sheet (1 + j) = Some x) →
  loopTest truthy_number sheet (1 + length urls1) = None →
  (∀ j x, urls2 !! j = Some x → loopTest truthy_number sheet (1 + j) = Some x) →
  loopTest truthy_number sheet (1 + length urls2) = None →
  urls1 = urls2.
Proof.
  intros H1 E1 H2 E2.
  assert (length urls1 = length urls2) as Hlen.
  { destruct (Nat.lt_trichotomy (length urls1) (length urls2)) as [Hlt|[?|Hlt]];
      [|done|].
    - destruct (lookup_lt_is_Some_2 urls2 _ Hlt) as [x Hx].
      apply H2 in Hx. congruence.
    - destruct (lookup_lt_is_Some_2 urls1 _ Hlt) as [x Hx].
      apply H1 in Hx. congruence. }
  apply list_eq. intros j.
  destruct (urls1 !! j) as [x|] eqn:Hx1.
  - destruct (lookup_lt_is_Some_2 urls2 j) as [y Hy].
    { rewrite <-Hlen. by eapply lookup_lt_Some. }
    apply H1 in Hx1. rewrite Hy. apply H2 in Hy. congruence.
  - symmetry. apply lookup_ge_None. rewrite <-Hlen. by apply lookup_ge_None.
Qed.

(** X9: reading the job list always ends, and gives exactly the values of
    column A from row 1 down to, and not including, the first row whose
    cell is missing, has no value or has a falsy one. *)
Theorem readUrls_reads_first_rows sheet :
  ∃ urls, readUrls truthy_number sheet = Some urls ∧
    (∀ j x, urls !! j = Some x →
            loopTest truthy_number sheet (1 + j) = Some x) ∧
    loopTest truthy_number sheet (1 + length urls) = None.
Proof.
  unfold readUrls.
  destruct (readRows_total (S (size sheet)) sheet 1 []) as [urls Hr]; [lia|].
  exists urls. split; [done|].
  apply readRows_spec in Hr as (new & -> & Hnew & Hend). done.
Qed.

(** X10: a row that fails the loop test hides every row below it: the
    list is shorter than that row, and no cell put below it changes what
    is read. *)
Theorem readUrls_stops_at_first_blank sheet r :
  1 ≤ r → loopTest truthy_number sheet r = None →
  ∃ urls, readUrls truthy_number sheet = Some urls ∧ length urls < r ∧
    ∀ r' c, r < r' →
      readUrls truthy_number (<[cellName r' := c]> sheet) = Some urls.
Proof.
  intros Hr Hblank.
  destruct (readRows_total (S (size sheet)) sheet 1 []) as [urls Hu]; [lia|].
  pose proof Hu as (new & -> & Hnew & Hend)%readRows_spec. cbn [app] in *.
  assert (length new < r) as Hlen.
  { destruct (decide (length new < r)) as [|Hge]; [done|].
    destruct (lookup_lt_is_Some_2 new (r - 1)) as [x Hx]; [lia|].
    apply Hnew in Hx. replace (1 + (r - 1)) with r in Hx by lia. congruence. }
  exists new. split; [done|]. split; [done|].
  intros r' c Hlt. unfold readUrls.
  destruct (readRows_total (S (size (<[cellName r' := c]> sheet)))
              (<[cellName r' := c]> sheet) 1 []) as [urls' Hu']; [lia|].
  rewrite Hu'. f_equal.
  apply readRows_spec in Hu' as (new' & -> & Hnew' & Hend'). cbn [app].
  apply (first_rows_unique (<[cellName r' := c]> sheet)); [done|done| |].
  - intros j x Hj. rewrite loopTest_insert; [by apply Hnew|].
    apply lookup_lt_Some in Hj. lia.
  - rewrite loopTest_insert by lia. done.
Qed.
End readUrls.

(** A sheet with a gap at row 2: only row 1 is read. *)
Lemma readUrls_stops_at_first_blank_witness :
  ∃ urls,
    readUrls (λ z : Z, bool_decide (z ≠ 0%Z))
      ({[ "A1"%string := Cell (Some (VString "https://example.org/"));
          "A3"%string := Cell (Some (VString "https://example.com/")) ]}
       : gmap string (cell Z)) = Some urls ∧
    length urls < 2.
Proof.
  destruct (readUrls_stops_at_first_blank (λ z : Z, bool_decide (z ≠ 0%Z))
              ({[ "A1"%string := Cell (Some (VString "https://example.org/"));
                  "A3"%string := Cell (Some (VString "https://example.com/")) ]}
               : gmap string (cell Z)) 2) as (urls & Hu & Hlen & _).
  - lia.
  - vm_compute. reflexivity.
  - exists urls. split; [exact Hu|exact Hlen].
Defined.

(** * The worker *)

Ltac wstep :=
  match goal with
  | |- context [match ?env ?c with Fulfils => _ | Rejects => _ | NeverSettles => _ end] =>
      destruct (env c) eqn:?
  end.

Ltac wrun :=
  unfold processUrl, mbind, W_bind, mret, W_ret, post, await, sleep;
  cbn [app]; repeat (wstep; cbn [app log_of percents completions]).

(** X11: whatever the awaited promises do, [processUrl] posts a completion
    message exactly when all of them are fulfilled; the message is then
    the last thing the worker does, comes after the PDF was written and
    the browser closed, and names the file that was written.  In every
    other case no completion message is posted and the function does not
    return. *)
Theorem processUrl_completes_iff_all_fulfil w dir today u idx env :
  let file := fileName today idx in
  let r := processUrl w dir today u idx env [] in
  (all_fulfil env u dir file →
     ∃ before, r = Returned () (before ++ [Await (Pdf dir file);
                                  Post (MsgProgress idx 90);
                                  Await CloseBrowser;
                                  Post (MsgCompleted idx w file)]) ∧
               completions before = []) ∧
  (¬ all_fulfil env u dir file →
     completions (log_of r) = [] ∧ ∀ log, r ≠ Returned () log).
Proof.
  cbv zeta. split.
  - intros (E1 & E2 & E3 & E4 & E5 & E6 & E7).
    unfold processUrl, mbind, W_bind, mret, W_ret, post, await, sleep.
    rewrite E1, E2, E3, E4, E5, E6, E7. cbn [app].
    eexists [_; _; _; _; _; _; _; _; _; _; _; _; _; _; _]. split; reflexivity.
  - intros Hnot. unfold all_fulfil in Hnot. wrun;
      try (split; [reflexivity|intros ?; discriminate]).
    destruct Hnot. by repeat split.
Qed.

(** A run in which the page never stops growing, so that [autoScroll]
    never settles. *)
Lemma processUrl_completes_iff_all_fulfil_witness :
  completions (log_of (processUrl 1 "./data/PDFs" (Date 10 2) "https://example.org/" 0
                         (λ c, match c with AutoScroll => NeverSettles | _ => Fulfils end)
                         [])) = [].
Proof.
  destruct (processUrl_completes_iff_all_fulfil 1 "./data/PDFs" (Date 10 2)
              "https://example.org/" 0
              (λ c, match c with AutoScroll => NeverSettles | _ => Fulfils end))
    as [_ H].
  destruct H as [H _].
  - intros (_ & _ & _ & H & _). discriminate H.
  - exact H.
Defined.

(** X12: whatever the awaited promises do, the percentages the worker
    reports are an initial part of 10, 30, 50, 70, 90, starting with 10:
    progress never goes back and no milestone is reported twice or
    skipped. *)
Theorem processUrl_progress_is_monotone w dir today u idx env :
  ∃ k, 1 ≤ k ∧
    percents (log_of (processUrl w dir today u idx env [])) = take k milestones.
Proof.
  wrun;
    first [ by exists 1; split; [lia|]
          | by exists 2; split; [lia|]
          | by exists 3; split; [lia|]
          | by exists 4; split; [lia|]
          | by exists 5; split; [lia|] ].
Qed.

(** * [autoScroll] *)

(** From any turn on: when the promise resolves, which turn it was and
    how far the page was scrolled. *)
Lemma autoScroll_sound fuel h tick total n T :
  autoScroll fuel h tick total = Some (n, T) →
  tick < n ≤ tick + fuel ∧
  T = (total + 100 * (Z.of_nat n - Z.of_nat tick))%Z ∧
  (h (n - 1)%nat ≤ T)%Z ∧
  ∀ t, tick ≤ t < n - 1 →
       (total + 100 * (Z.of_nat t - Z.of_nat tick + 1) < h t)%Z.
Proof.
  revert tick total. induction fuel as [|fuel IH]; intros tick total; [done|].
  cbn [autoScroll]. unfold distance. case_decide as Hh.
  - intros [= <- <-]. replace (S tick - 1) with tick by lia.
    repeat split; try lia.
  - intros (Hn & -> & Hlast & Hbefore)%IH.
    repeat split; try lia. intros t Ht.
    destruct (decide (t = tick)) as [->|Hne]; [lia|].
    specialize (Hbefore t). lia.
Qed.

Lemma autoScroll_complete fuel h tick total n :
  tick < n ≤ tick + fuel →
  (∀ t, tick ≤ t < n - 1 →
        (total + 100 * (Z.of_nat t - Z.of_nat tick + 1) < h t)%Z) →
  (h (n - 1)%nat ≤ total + 100 * (Z.of_nat n - Z.of_nat tick))%Z →
  autoScroll fuel h tick total
  = Some (n, (total + 100 * (Z.of_nat n - Z.of_nat tick))%Z).
Proof.
  revert tick total. induction fuel as [|fuel IH]; intros tick total Hn Hbefore Hlast;
    [lia|].
  cbn [autoScroll]. unfold distance.
  destruct (decide (n = S tick)) as [->|Hne].
  - replace (S tick - 1) with tick in Hlast by lia.
    rewrite decide_True by lia. do 2 f_equal. lia.
  - rewrite decide_False by (specialize (Hbefore tick); lia).
    rewrite (IH (S tick) (total + 100)%Z); [do 2 f_equal; lia|lia| |].
    + intros t Ht. specialize (Hbefore t). lia.
    + lia.
Qed.

(** X13: [autoScroll] resolves in the first turn in which the distance
    scrolled so far, 100 for each turn, has reached the page height read
    in that turn, and in no other: it has then called [scrollBy] once for
    each turn. *)
Theorem autoScroll_resolves_at_first_reach fuel h n T :
  autoScroll fuel h 0 0 = Some (n, T) ↔
  1 ≤ n ≤ fuel ∧ T = (100 * Z.of_nat n)%Z ∧
  (h (n - 1)%nat ≤ 100 * Z.of_nat n)%Z ∧
  ∀ t, t < n - 1 → (100 * (Z.of_nat t + 1) < h t)%Z.
Proof.
  split.
  - intros (Hn & -> & Hlast & Hbefore)%autoScroll_sound.
    repeat split; try lia. intros t Ht. specialize (Hbefore t). lia.
  - intros (Hn & -> & Hlast & Hbefore).
    rewrite (autoScroll_complete fuel h 0 0 n); [do 2 f_equal; lia|lia| |lia].
    intros t Ht. specialize (Hbefore t). lia.
Qed.

(** A page 250 high resolves in the third turn, not before. *)
Lemma autoScroll_resolves_at_first_reach_witness :
  (250 ≤ 100 * Z.of_nat 3)%Z ∧ ∀ t, t < 3 - 1 → (100 * (Z.of_nat t + 1) < 250)%Z.
Proof.
  destruct (proj1 (autoScroll_resolves_at_first_reach 5 (λ _, 250%Z) 3 300))
    as (_ & _ & H1 & H2).
  - vm_compute. reflexivity.
  - split; [exact H1|exact H2].
Defined.

(** X14: on a page whose height stays [H] the promise resolves after
    ⌈H/100⌉ turns, and after one turn when [H] is 100 or less, zero
    included: the page is always scrolled at least once, and by less than
    100 beyond its height. *)
Theorem autoScroll_constant_height fuel H :
  let n := Z.to_nat (Z.max 1 ((H + 99) / 100)) in
  n ≤ fuel →
  autoScroll fuel (λ _, H) 0 0 = Some (n, (100 * Z.of_nat n)%Z) ∧
  (H ≤ 100 * Z.of_nat n)%Z ∧ (100 < H → 100 * Z.of_nat n < H + 100)%Z.
Proof.
  cbv zeta. intros Hfuel.
  set (n := Z.to_nat (Z.max 1 ((H + 99) / 100))) in *.
  assert (Z.of_nat n = Z.max 1 ((H + 99) / 100)) as Hn by (subst n; lia).
  pose proof (Z.div_mod (H + 99) 100 ltac:(lia)) as Hdiv.
  pose proof (Z.mod_pos_bound (H + 99) 100 ltac:(lia)) as Hmod.
  assert (H ≤ 100 * Z.of_nat n)%Z as Hreach by lia.
  split; [|split; [done|lia]].
  rewrite (autoScroll_complete fuel (λ _, H) 0 0 n); [do 2 f_equal; lia|lia| |lia].
  intros t Ht. lia.
Qed.

(** A page 250 high: three turns. *)
Lemma autoScroll_constant_height_witness :
  autoScroll 5 (λ _, 250%Z) 0 0 = Some (3, 300%Z).
Proof.
  destruct (autoScroll_constant_height 5 250) as [H _].
  - vm_compute. lia.
  - exact H.
Defined.

(** X15: on a page that in every turn is higher than the distance scrolled
    so far, as one that loads more content whenever it is scrolled, the
    promise never resolves, however many turns are run. *)
Theorem autoScroll_never_resolves_on_growing_page h :
  (∀ t, (100 * (Z.of_nat t + 1) < h t)%Z) →
  ∀ fuel, autoScroll fuel h 0 0 = None.
Proof.
  intros Hgrow fuel.
  destruct (autoScroll fuel h 0 0) as [[n T]|] eqn:Hr; [|done].
  apply autoScroll_sound in Hr as (Hn & -> & Hlast & _).
  specialize (Hgrow (n - 1)). lia.
Qed.

(** A page that grows by 200 in each turn. *)
Lemma autoScroll_never_resolves_on_growing_page_witness :
  autoScroll 50 (λ t, (200 * (Z.of_nat t + 1))%Z) 0 0 = None.
Proof.
  apply autoScroll_never_resolves_on_growing_page. intros t. lia.
Defined.

(** * File names within a batch *)

Lemma string_app_cons c (s t : string) : String c s +:+ t = String c (s +:+ t).
Proof. reflexivity. Qed.

Lemma string_length_app (s t : string) :
  String.length (s +:+ t) = String.length s + String.length t.
Proof.
  induction s as [|c s IH]; [done|].
  rewrite string_app_cons. cbn [String.length]. by rewrite IH.
Qed.

Lemma string_app_inv_l (s t1 t2 : string) : s +:+ t1 = s +:+ t2 → t1 = t2.
Proof.
  induction s as [|c s IH]; [done|].
  rewrite !string_app_cons. intros [= H]. by apply IH.
Qed.

Lemma string_app_inv_r (s1 s2 t : string) : s1 +:+ t = s2 +:+ t → s1 = s2.
Proof.
  revert s2. induction s1 as [|c s1 IH]; intros [|c' s2]; [done|..].
  - intros H. apply (f_equal String.length) in H.
    rewrite !string_length_app in H. cbn [String.length] in H. lia.
  - intros H. apply (f_equal String.length) in H.
    rewrite !string_length_app in H. cbn [String.length] in H. lia.
  - rewrite !string_app_cons. intros [= -> H]. f_equal. by apply IH.
Qed.

Lemma padStart_one_digit n :
  n < 10 →
  padStart 2 "0" (pretty n) = "0" +:+ String (pretty_N_char (N.of_nat n)) "".
Proof. intros Hn. by rewrite pretty_one_digit. Qed.

Lemma pretty_very_long n : 100 ≤ n → 3 ≤ String.length (pretty n).
Proof.
  intros Hn. unfold pretty, pretty_nat, pretty, pretty_N.
  rewrite decide_False by lia.
  rewrite pretty_N_go_step by lia.
  assert (10 ≤ N.of_nat n `div` 10)%N as Hq by (apply N.div_le_lower_bound; lia).
  rewrite pretty_N_go_step by lia.
  rewrite pretty_N_go_step by (apply N.div_str_pos; lia).
  etrans; [|apply pretty_N_go_length]. done.
Qed.

(** A one-digit number and a longer one are padded to different texts. *)
Lemma padStart_digit_vs_long a b :
  a < 10 → 10 ≤ b → padStart 2 "0" (pretty a) ≠ padStart 2 "0" (pretty b).
Proof.
  intros Ha Hb. rewrite padStart_one_digit, padStart_large by done.
  destruct (decide (b < 100)) as [Hs|Hl].
  - rewrite pretty_two_digits by lia. unfold two_digits. intros [= H _].
    assert (0 < N.of_nat b `div` 10 < 10)%N as Hq.
    { split; [apply N.div_str_pos; lia|apply N.Div0.div_lt_upper_bound; lia]. }
    revert H Hq. generalize (N.of_nat b `div` 10)%N. intros q H Hq.
    apply (pretty_N_char_inj 0 q) in H; lia.
  - intros H. apply (f_equal String.length) in H.
    rewrite string_length_app in H. cbn [String.length] in H.
    pose proof (pretty_very_long b ltac:(lia)). lia.
Qed.

Lemma padStart_number_inj (a b : nat) :
  padStart 2 "0" (pretty a) = padStart 2 "0" (pretty b) → a = b.
Proof.
  destruct (decide (a < 10)) as [Ha|Ha], (decide (b < 10)) as [Hb|Hb].
  - rewrite !padStart_one_digit by done. intros [= H].
    apply pretty_N_char_inj in H; lia.
  - intros H. by apply padStart_digit_vs_long in H; [|lia..].
  - intros H. symmetry in H. by apply padStart_digit_vs_long in H; [|lia..].
  - rewrite !padStart_large by lia. apply (inj pretty).
Qed.

(** X16: on one date, two jobs get the same file name only if they are the
    same job: within a batch no PDF overwrites another. *)
Theorem fileName_distinguishes_jobs d i j :
  fileName d i = fileName d j → i = j.
Proof.
  unfold fileName. cbv zeta. intros H.
  do 3 apply string_app_inv_l in H. apply string_app_inv_r in H.
  apply padStart_number_inj in H. lia.
Qed.

(** The name of job 4 on the second of November is that of no other job. *)
Lemma fileName_distinguishes_jobs_witness : 3 = 3.
Proof. apply (fileName_distinguishes_jobs (Date 10 2) 3 3). reflexivity. Defined.

(** * Workers are killed only at the end *)

Lemma kills_app l1 l2 : kills (l1 ++ l2) = kills l1 ++ kills l2.
Proof. induction l1 as [|[] l1 IH]; cbn; by rewrite ?IH. Qed.

Lemma assignTask_kills us k s now w :
  inv_at us k s →
  kills (output (state_of (assignTask now w s))) = kills (output s) ∧
  totalProcessedTasks (state_of (assignTask now w s)) = totalProcessedTasks s ∧
  urls (state_of (assignTask now w s)) = urls s.
Proof.
  intros I.
  destruct (assignTask_outcome _ _ _ now w I) as [|t rest Hq Hi|t rest Hq Hi];
    states; try done.
  rewrite kills_app. cbn [kills]. by rewrite app_nil_r.
Qed.

Lemma handle_kills us s now e :
  inv us s →
  (totalProcessedTasks s < length us → kills (output s) = []) →
  totalProcessedTasks (state_of (handle now e s)) < length us →
  kills (output (state_of (handle now e s))) = [].
Proof.
  intros I HK. destruct e as [w| |idx w|w|w m|w]; cbn [handle].
  - munfold. set (s0 := set_onlineHooks _ s). destruct I as [k I].
    assert (inv_at us k s0) as I0 by by eapply inv_at_core.
    destruct (assignTask_kills _ _ _ now w I0) as (-> & -> & _). exact HK.
  - unfold updateConsole. munfold. fields. intros Hlt.
    rewrite kills_app, HK by done. done.
  - munfold. set (s0 := set_timers _ s). destruct I as [k I].
    assert (inv_at us k s0) as I0 by by eapply inv_at_core.
    destruct (decide (idx ∈ inProgress s0)) as [Hin|Hno].
    + rewrite (onTimeout_inv_live _ _ _ _ _ _ I0 Hin).
      pose proof (inv_marked _ _ _ _ I0 Hin) as I1.
      set (s1 := marked idx _ s0) in *.
      destruct (assignTask_kills us k (checked s1) now w (inv_checked _ _ _ I1))
        as (-> & -> & _).
      destruct (checked_fields s1) as (_ & _ & -> & _).
      unfold checked. rewrite (inv_urls _ _ _ I1). intros Hlt.
      rewrite decide_False by lia. subst s1 s0. states_in Hlt. states.
      rewrite kills_app, HK by lia. done.
    + rewrite onTimeout_stale by done. exact HK.
  - munfold. set (s0 := set_onlineHooks _ _).
    destruct (decide (work_remains s0)).
    + rewrite onExit_respawn by done. subst s0. states. intros Hlt.
      rewrite !kills_app, HK by done. done.
    + rewrite onExit_quiet by done. subst s0. states. intros Hlt.
      rewrite !kills_app, HK by done. done.
  - exact HK.
  - exact HK.
Qed.

Lemma init_kills us n : kills (output (init us n)) = [].
Proof.
  rewrite init_eq. induction n as [|n IH]; [done|].
  rewrite Nat.iter_succ. set (s := Nat.iter n forked (fresh us)) in *.
  states. rewrite kills_app, IH. done.
Qed.

(** X17: in every run, as long as the total-processed counter is below
    the number of jobs the master has killed no worker: [kill()] is only
    called by the shutdown sequence. *)
Theorem no_worker_killed_while_jobs_remain us n evs :
  totalProcessedTasks (state_of (run evs (init us n))) < length us →
  kills (output (state_of (run evs (init us n)))) = [].
Proof.
  refine (proj2 (run_preserves
    (λ s, inv us s ∧
          (totalProcessedTasks s < length us → kills (output s) = []))
    _ evs (init us n) _)).
  - intros now e s [I HK]. split; [by apply handle_inv|by apply handle_kills].
  - split; [apply init_inv|]. intros _. apply init_kills.
Qed.

(** Two jobs, the first in progress: nobody has been killed. *)
Lemma no_worker_killed_while_jobs_remain_witness :
  kills (output (state_of (run [(0%Z, WorkerOnline 1)]
                             (init ["a"; "b"]%string 1)))) = [].
Proof.
  apply no_worker_killed_while_jobs_remain. vm_compute. lia.
Defined.
